(** * keeweb-connect: the encrypted request/response protocol and the
      request queue of the background page

    A shallow embedding of [src/background/protocol/protocol-impl.ts] and
    [src/background/backend.ts], and the properties of the specification that
    are settled on it. *)

From Stdlib Require Import ZArith String Ascii Lia.
From stdpp Require Import base tactics option list strings.

Local Open Scope Z_scope.

(** A [Uint8Array] is a list of integers; every store into it keeps the low
    eight bits of the stored number. *)
Abbreviation bytes := (list Z).

Definition ToUint8 (c : Z) : Z := Z.land c 255.

(** ** [ProtocolImpl.validateNonce]: the increment loop

    <<
      let i = 0; let c = 1;
      for (; i < nonceData.length; ++i) {
          c += nonceData[i]; nonceData[i] = c; c >>= 8;
      }
    >>
    The array is updated in place by index. [fuel] bounds the number of
    iterations; [length nonceData] is always enough. *)
Fixpoint increment_loop (fuel : nat) (i : nat) (c : Z) (nonceData : bytes) : bytes :=
  match fuel with
  | O => nonceData
  | S fuel' =>
      match nonceData !! i with
      | None => nonceData                       (* i < nonceData.length fails *)
      | Some b =>
          let c := c + b in
          increment_loop fuel' (S i) (Z.shiftr c 8) (<[i := ToUint8 c]> nonceData)
      end
  end.

Definition increment (nonceData : bytes) : bytes :=
  increment_loop (length nonceData) 0 1 nonceData.

(** The same computation by recursion on the array, carry first. *)
Fixpoint add_carry (c : Z) (nonceData : bytes) : bytes :=
  match nonceData with
  | [] => []
  | b :: rest => ToUint8 (c + b) :: add_carry (Z.shiftr (c + b) 8) rest
  end.

(** The carry that leaves the most significant byte. *)
Fixpoint carry_out (c : Z) (nonceData : bytes) : Z :=
  match nonceData with
  | [] => c
  | b :: rest => carry_out (Z.shiftr (c + b) 8) rest
  end.

(** The number a byte sequence stands for, least significant byte first. *)
Fixpoint le_value (d : bytes) : Z :=
  match d with
  | [] => 0
  | b :: rest => b + 256 * le_value rest
  end.

Definition is_byte (b : Z) : Prop := 0 <= b < 256.

(** ** Wire messages ([protocol/types]) *)

(** A request as it travels to KeeWeb. The handshake request carries
    [publicKey]; an encrypted request carries [message]. *)
Module Req.
Record t := mk {
  action : string;
  message : option string;
  nonce : option string;
  clientID : option string;
  publicKey : option string
}.
End Req.
Abbreviation KeeWebConnectRequest := Req.t.

(** [KeeWebConnectEncryptedRequest]: what [makeEncryptedRequest] returns. *)
Module EncReq.
Record t := mk {
  action : string;
  message : string;
  nonce : string;
  clientID : string
}.
Definition to_request (r : t) : KeeWebConnectRequest :=
  Req.mk (action r) (Some (message r)) (Some (nonce r)) (Some (clientID r)) None.
End EncReq.
Abbreviation KeeWebConnectEncryptedRequest := EncReq.t.

(** A response, or a decrypted payload: every field may be missing. *)
Module Resp.
Record t := mk {
  action : option string;
  message : option string;
  nonce : option string;
  publicKey : option string;
  error : option string;
  errorCode : option string;
  hash : option string
}.
End Resp.
Abbreviation KeeWebConnectResponse := Resp.t.

(** JavaScript truthiness of a [string | undefined]: [!s] holds for
    [undefined] and for the empty string. *)
Definition truthy (s : option string) : option string :=
  match s with
  | Some EmptyString => None
  | other => other
  end.

(** ** Exceptions *)

(** What tweetnacl throws from its argument checks. *)
Inductive nacl_error :=
| unexpected_type            (* TypeError('unexpected type, use Uint8Array') *)
| bad_public_key_size
| bad_secret_key_size
| bad_nonce_size.

Inductive exn :=
| Error (message : string)       (* [new Error(message)], thrown by the repository's code *)
| NaclError (e : nacl_error)     (* thrown inside tweetnacl *)
| Base64Error                    (* [fromBase64] failed outside a try block *)
| TextDecoderTypeError           (* [TextDecoder.decode] given [null] *)
| JSONSyntaxError                (* [JSON.parse] of malformed text *)
| PropertyOfNullish.             (* reading a property of [null] or [undefined] *)

Inductive result (A : Type) :=
| Ok (a : A)
| Throw (e : exn).
Arguments Ok {A} a.
Arguments Throw {A} e.

Definition bind {A B} (r : result A) (k : A -> result B) : result B :=
  match r with
  | Ok a => k a
  | Throw e => Throw e
  end.

Declare Scope js_scope.
Delimit Scope js_scope with js.
Notation "'let*' x ':=' r 'in' k" := (bind r (fun x => k))
  (at level 10, x pattern, r at level 100, k at level 200) : js_scope.
Local Open Scope js_scope.

(** ** The platform the protocol runs on

    [toBase64] and [fromBase64] come from [background/utils], which is not
    among the sources; the box primitives are tweetnacl's, the text codec
    and the JSON reader are the browser's. They are taken as parameters.
    [fromBase64] can throw (the code wraps it in [try]): [None]. *)
Inductive json_value :=
| JSyntaxError
| JNull
| JObject (payload : KeeWebConnectResponse).

Class Platform := {
  toBase64 : bytes -> string;
  fromBase64 : string -> option bytes;
  (* the cipher behind [nacl.box] and [nacl.box.open]: message, nonce,
     public key, secret key; opening yields [None] when the box does not
     authenticate *)
  crypto_box : bytes -> bytes -> bytes -> bytes -> bytes;
  crypto_box_open : bytes -> bytes -> bytes -> bytes -> option bytes;
  (* [new TextEncoder().encode(JSON.stringify(payload))] *)
  encode_json : KeeWebConnectRequest -> bytes;
  utf8_decode : bytes -> string;
  JSON_parse : string -> json_value;
  (* chrome.i18n.getMessage *)
  getMessage : string -> string
}.

Record BoxKeyPair := { publicKey : bytes; secretKey : bytes }.

(** The fields of a [ProtocolImpl]. [_keewebPublicKey] has no initialiser: it
    is [undefined] until [changePublicKeys] stores the peer's key. *)
Record ProtocolImpl := {
  _clientId : string;
  _ownKeys : BoxKeyPair;
  _keewebPublicKey : option bytes
}.

Definition _keySize : nat := 24.

(** The constructor: [generateKeys] with the random client id and key pair
    drawn by the caller. *)
Definition new_ProtocolImpl (clientIdBytes : bytes) (keys : BoxKeyPair)
    `{Platform} : ProtocolImpl :=
  {| _clientId := toBase64 clientIdBytes; _ownKeys := keys; _keewebPublicKey := None |}.

(** ** Asynchronous methods

    An [async] method runs until it awaits the transport adapter; the
    adapter later settles the awaited promise with a response or a
    rejection and the method continues. [Return] is the settlement of the
    method's own promise. *)
Inductive Async (A : Type) :=
| Return (r : result A)
| Await (sent : KeeWebConnectRequest)
        (k : result KeeWebConnectResponse -> Async A).
Arguments Return {A} r.
Arguments Await {A} sent k.


Section Protocol.
Context `{Platform}.

(** *** tweetnacl's entry points

    [nacl.box] and [nacl.box.open] first check that both keys are
    [Uint8Array]s ([checkArrayTypes]) and have 32 bytes, then that the
    nonce has 24 bytes, and only then run the cipher. [nacl.box.open]
    returns [null] when the box does not authenticate. *)
Definition checkBoxArguments (nonce : bytes) (publicKey : option bytes)
    (secretKey : bytes) : result bytes :=
  match publicKey with
  | None => Throw (NaclError unexpected_type)
  | Some pk =>
      if negb (length pk =? 32)%nat then Throw (NaclError bad_public_key_size)
      else if negb (length secretKey =? 32)%nat then Throw (NaclError bad_secret_key_size)
      else if negb (length nonce =? 24)%nat then Throw (NaclError bad_nonce_size)
      else Ok pk
  end.

Definition tweetnaclBox (msg nonce : bytes) (publicKey : option bytes)
    (secretKey : bytes) : result bytes :=
  let* pk := checkBoxArguments nonce publicKey secretKey in
  Ok (crypto_box msg nonce pk secretKey).

Definition tweetnaclBox_open (box nonce : bytes) (publicKey : option bytes)
    (secretKey : bytes) : result (option bytes) :=
  let* pk := checkBoxArguments nonce publicKey secretKey in
  Ok (crypto_box_open box nonce pk secretKey).

(** [new TextDecoder().decode(data)]: a [null] argument is not a buffer
    and is refused with a [TypeError]. *)
Definition TextDecoder_decode (data : option bytes) : result string :=
  match data with
  | None => Throw TextDecoderTypeError
  | Some d => Ok (utf8_decode d)
  end.

(** *** [ProtocolImpl.makeEncryptedRequest]; [nonce] is the value drawn by
    [generateNonce]. *)
Definition makeEncryptedRequest (this : ProtocolImpl)
    (payload : KeeWebConnectRequest) (nonce : bytes)
    : result KeeWebConnectEncryptedRequest :=
  let data := encode_json payload in
  let* encrypted :=
    tweetnaclBox data nonce (_keewebPublicKey this) (secretKey (_ownKeys this)) in
  Ok {| EncReq.action := Req.action payload;
        EncReq.message := toBase64 encrypted;
        EncReq.nonce := toBase64 nonce;
        EncReq.clientID := _clientId this |}.

(** *** [ProtocolImpl.fieldFromBase64] *)
Definition fieldFromBase64 (base64 : option string) (fieldName : string)
    : result bytes :=
  match truthy base64 with
  | None => Throw (Error ("Empty value " +:+ fieldName +:+ ": expected base64"))
  | Some s =>
      match fromBase64 s with
      | Some data => Ok data
      | None => Throw (Error ("Bad value " +:+ fieldName +:+ ": failed to decode base64"))
      end
  end.

(** *** [ProtocolImpl.validateNonce] *)
Definition validateNonce (nonce : string) (incrementedNonce : option string)
    : result unit :=
  match fromBase64 nonce with
  | None => Throw Base64Error
  | Some nonceData =>
      let expected := toBase64 (increment nonceData) in
      if decide (Some expected = incrementedNonce) then Ok tt
      else Throw (Error "Bad nonce in response")
  end.

(** *** [ProtocolImpl.checkResponseError] *)
Definition checkResponseError (response : KeeWebConnectResponse)
    : result KeeWebConnectResponse :=
  match truthy (Resp.error response) with
  | Some err =>
      let locErr := getMessage "errorAppReturnedError" in
      let errCodeStr :=
        match truthy (Resp.errorCode response) with
        | Some code => "[code=" +:+ code +:+ "] "
        | None => ""
        end in
      let resErr := errCodeStr +:+ err in
      Throw (Error (locErr +:+ ": " +:+ resErr))
  | None => Ok response
  end.

(** *** [ProtocolImpl.decryptResponsePayload]; the result [None] is
    [undefined]. *)
Definition decryptResponsePayload (this : ProtocolImpl)
    (request : KeeWebConnectEncryptedRequest) (response : KeeWebConnectResponse)
    : result (option KeeWebConnectResponse) :=
  match truthy (Resp.message response) with
  | None => Ok None
  | Some _ =>
      let* _ := validateNonce (EncReq.nonce request) (Resp.nonce response) in
      let* message := fieldFromBase64 (Resp.message response) "message" in
      let* nonce := fieldFromBase64 (Resp.nonce response) "nonce" in
      let* data :=
        tweetnaclBox_open message nonce (_keewebPublicKey this)
          (secretKey (_ownKeys this)) in
      let* json := TextDecoder_decode data in
      match JSON_parse json with
      | JSyntaxError => Throw JSONSyntaxError
      | JNull => Throw PropertyOfNullish      (* [response.error] of [null] *)
      | JObject payload =>
          let* checked := checkResponseError payload in
          Ok (Some checked)
      end
  end.

(** *** The asynchronous methods *)

(** [ProtocolImpl.request] *)
Definition request (request : KeeWebConnectRequest) : Async KeeWebConnectResponse :=
  Await request (fun response => Return (bind response checkResponseError)).

(** [ProtocolImpl.changePublicKeys]; the new object state is returned with
    the outcome. A response without [publicKey] makes [fromBase64] fail. *)
Definition changePublicKeys (this : ProtocolImpl) (nonce : bytes)
    : Async ProtocolImpl :=
  let request :=
    {| Req.action := "change-public-keys";
       Req.message := None;
       Req.nonce := Some (toBase64 nonce);
       Req.clientID := Some (_clientId this);
       Req.publicKey := Some (toBase64 (publicKey (_ownKeys this))) |} in
  Await request (fun response =>
    Return (
      let* response := bind response checkResponseError in
      match from_option fromBase64 None (Resp.publicKey response) with
      | Some key =>
          Ok {| _clientId := _clientId this; _ownKeys := _ownKeys this;
                _keewebPublicKey := Some key |}
      | None => Throw Base64Error
      end)).

(** [ProtocolImpl.getDatabaseHash]; [payload.hash] of an [undefined]
    payload is a [TypeError]. *)
Definition getDatabaseHash (this : ProtocolImpl) (nonce : bytes)
    : Async (option string) :=
  let payload :=
    {| Req.action := "get-databasehash"; Req.message := None; Req.nonce := None;
       Req.clientID := None; Req.publicKey := None |} in
  match makeEncryptedRequest this payload nonce with
  | Throw e => Return (Throw e)
  | Ok request =>
      Await (EncReq.to_request request) (fun response =>
        Return (
          let* response := bind response checkResponseError in
          let* payload := decryptResponsePayload this request response in
          match payload with
          | None => Throw PropertyOfNullish
          | Some payload => Ok (Resp.hash payload)
          end))
  end.

End Protocol.

(** ** The connection manager ([background/backend.ts]) *)

Module BackendConnectionState.
Inductive t := Initializing | ReadyToConnect | Connecting | Connected | Error.
#[global] Instance eq_dec : EqDecision t.
Proof. solve_decision. Defined.
End BackendConnectionState.

(** [RequestQueueItem]. The pair [resolve]/[reject] is the promise they
    settle, named by a number; [timeout] is the handle [setTimeout] returned. *)
Module Item.
Record t := mk {
  request : KeeWebConnectRequest;
  promise : nat;
  timeout : nat
}.
End Item.
Abbreviation RequestQueueItem := Item.t.

Inductive Transport :=
| TransportNativeMessaging
| TransportBrowserTab (url : string).

(** What the object does to the world around it, in the order it does it.
    [transport_request] carries, besides the request given to
    [Transport.request], the promise of the queue item it was taken from. *)
Inductive effect :=
| new_transport (t : Transport)
| transport_connect
| transport_request (promise : nat) (r : KeeWebConnectRequest)
| transport_focusKeeWeb
| emit_state_changed
| emit_connect_finished (e : option string)
| resolve (promise : nat) (msg : KeeWebConnectResponse)
| reject (promise : nat) (message : string)
| connect_resolved (caller : nat)
| connect_rejected (caller : nat) (message : string).

(** The fields of [Backend], followed by the part of the event loop the
    object relies on: the live timers (handle and the promise their callback
    rejects), the [once] listeners of ['connect-finished'] (the callers of
    [connect] waiting for it), the next unused number and the effects so far. *)
Record Backend := {
  _useNativeApp : bool;
  _keeWebUrl : option string;
  _state : BackendConnectionState.t;
  _connectionError : option string;
  _transport : option Transport;
  _requestQueue : list RequestQueueItem;
  _currentRequest : option RequestQueueItem;
  _protocol : bool;
  timers : list (nat * nat);
  once_connect_finished : list nat;
  next_id : nat;
  log : list effect
}.

Definition _defaultKeeWebUrl : string := "https://app.keeweb.info/".

Definition new_Backend : Backend :=
  {| _useNativeApp := true; _keeWebUrl := Some _defaultKeeWebUrl;
     _state := BackendConnectionState.Initializing; _connectionError := None;
     _transport := None; _requestQueue := []; _currentRequest := None;
     _protocol := false; timers := []; once_connect_finished := [];
     next_id := O; log := [] |}.

(** Assignments to single fields. *)
Definition set_state v (b : Backend) : Backend :=
  {| _useNativeApp := _useNativeApp b; _keeWebUrl := _keeWebUrl b; _state := v;
     _connectionError := _connectionError b; _transport := _transport b;
     _requestQueue := _requestQueue b; _currentRequest := _currentRequest b;
     _protocol := _protocol b; timers := timers b;
     once_connect_finished := once_connect_finished b; next_id := next_id b;
     log := log b |}.
Definition set_connectionError v (b : Backend) : Backend :=
  {| _useNativeApp := _useNativeApp b; _keeWebUrl := _keeWebUrl b; _state := _state b;
     _connectionError := v; _transport := _transport b;
     _requestQueue := _requestQueue b; _currentRequest := _currentRequest b;
     _protocol := _protocol b; timers := timers b;
     once_connect_finished := once_connect_finished b; next_id := next_id b;
     log := log b |}.
Definition set_transport v p (b : Backend) : Backend :=
  {| _useNativeApp := _useNativeApp b; _keeWebUrl := _keeWebUrl b; _state := _state b;
     _connectionError := _connectionError b; _transport := v;
     _requestQueue := _requestQueue b; _currentRequest := _currentRequest b;
     _protocol := p; timers := timers b;
     once_connect_finished := once_connect_finished b; next_id := next_id b;
     log := log b |}.
Definition set_requestQueue v (b : Backend) : Backend :=
  {| _useNativeApp := _useNativeApp b; _keeWebUrl := _keeWebUrl b; _state := _state b;
     _connectionError := _connectionError b; _transport := _transport b;
     _requestQueue := v; _currentRequest := _currentRequest b;
     _protocol := _protocol b; timers := timers b;
     once_connect_finished := once_connect_finished b; next_id := next_id b;
     log := log b |}.
Definition set_currentRequest v (b : Backend) : Backend :=
  {| _useNativeApp := _useNativeApp b; _keeWebUrl := _keeWebUrl b; _state := _state b;
     _connectionError := _connectionError b; _transport := _transport b;
     _requestQueue := _requestQueue b; _currentRequest := v;
     _protocol := _protocol b; timers := timers b;
     once_connect_finished := once_connect_finished b; next_id := next_id b;
     log := log b |}.
Definition set_timers v (b : Backend) : Backend :=
  {| _useNativeApp := _useNativeApp b; _keeWebUrl := _keeWebUrl b; _state := _state b;
     _connectionError := _connectionError b; _transport := _transport b;
     _requestQueue := _requestQueue b; _currentRequest := _currentRequest b;
     _protocol := _protocol b; timers := v;
     once_connect_finished := once_connect_finished b; next_id := next_id b;
     log := log b |}.
Definition set_once_connect_finished v (b : Backend) : Backend :=
  {| _useNativeApp := _useNativeApp b; _keeWebUrl := _keeWebUrl b; _state := _state b;
     _connectionError := _connectionError b; _transport := _transport b;
     _requestQueue := _requestQueue b; _currentRequest := _currentRequest b;
     _protocol := _protocol b; timers := timers b;
     once_connect_finished := v; next_id := next_id b;
     log := log b |}.
Definition set_next_id v (b : Backend) : Backend :=
  {| _useNativeApp := _useNativeApp b; _keeWebUrl := _keeWebUrl b; _state := _state b;
     _connectionError := _connectionError b; _transport := _transport b;
     _requestQueue := _requestQueue b; _currentRequest := _currentRequest b;
     _protocol := _protocol b; timers := timers b;
     once_connect_finished := once_connect_finished b; next_id := v;
     log := log b |}.
Definition set_log v (b : Backend) : Backend :=
  {| _useNativeApp := _useNativeApp b; _keeWebUrl := _keeWebUrl b; _state := _state b;
     _connectionError := _connectionError b; _transport := _transport b;
     _requestQueue := _requestQueue b; _currentRequest := _currentRequest b;
     _protocol := _protocol b; timers := timers b;
     once_connect_finished := once_connect_finished b; next_id := next_id b;
     log := v |}.

Definition does (e : effect) (this : Backend) : Backend :=
  set_log (log this ++ [e]) this.

(** [clearTimeout(handle)] *)
Definition clearTimeout (handle : nat) (this : Backend) : Backend :=
  set_timers (filter (fun t => fst t ≠ handle) (timers this)) this.

Section Backend.
Context `{Platform}.
Import BackendConnectionState.

(** *** [Backend.setState] *)
Definition setState (state : BackendConnectionState.t) (this : Backend) : Backend :=
  if decide (_state this ≠ state) then
    does emit_state_changed (set_state state this)
  else this.

(** *** [Backend.sendTransportRequest]: [this._transport?.request(request)] *)
Definition sendTransportRequest (item : RequestQueueItem) (this : Backend) : Backend :=
  match _transport this with
  | Some _ => does (transport_request (Item.promise item) (Item.request item)) this
  | None => this
  end.

(** *** [Backend.processRequestQueue] *)
Definition processRequestQueue (this : Backend) : Backend :=
  match _currentRequest this, _requestQueue this with
  | Some _, _ => this
  | None, [] => this
  | None, head :: rest =>
      let dispatch :=
        let this := set_requestQueue rest this in     (* shift() *)
        let this := set_currentRequest (Some head) this in
        sendTransportRequest head this in
      if decide (_state this = Connecting) then
        let allowedWhileConnecting :=
          bool_decide (Req.action (Item.request head) = "change-public-keys") in
        if negb allowedWhileConnecting then this else dispatch
      else if decide (_state this ≠ Connected) then this
      else dispatch
  end.

(** When [processRequestQueue] hands the head of the queue to the
    transport: the slot is empty and the state is [Connected], or
    [Connecting] with the handshake at the head. *)
Definition may_dispatch (this : Backend) (head : RequestQueueItem) : Prop :=
  _currentRequest this = None /\
  (_state this = Connected \/
   (_state this = Connecting /\ Req.action (Item.request head) = "change-public-keys")).

(** *** [Backend.request]; the promise it returns and the timer it starts
    both get the number [next_id this]. *)
Definition request_ (request : KeeWebConnectRequest) (this : Backend) : Backend :=
  let id := next_id this in
  let this := set_next_id (S id) this in
  let this := set_timers (timers this ++ [(id, id)]) this in      (* setTimeout *)
  let item := {| Item.request := request; Item.promise := id; Item.timeout := id |} in
  let this := set_requestQueue (_requestQueue this ++ [item]) this in   (* push *)
  processRequestQueue this.

(** The callback given to [setTimeout] in [request], for the timer
    [handle]; a timer that was cleared or has fired does nothing. *)
Definition timeout_callback (handle : nat) (this : Backend) : Backend :=
  match list_find (fun t => fst t = handle) (timers this) with
  | None => this
  | Some (_, (_, promise)) =>
      let this := clearTimeout handle this in          (* the timer is spent *)
      let this := set_currentRequest None this in
      let errStr := getMessage "errorRequestTimeout" in
      does (reject promise errStr) this
  end.

(** *** [Backend.focusKeeWebTab] *)
Definition focusKeeWebTab (this : Backend) : Backend :=
  match _transport this with
  | Some _ => does transport_focusKeeWeb this
  | None => this
  end.

(** *** [Backend.transportMessage] *)
Definition transportMessage (msg : KeeWebConnectResponse) (this : Backend) : Backend :=
  if decide (Resp.action msg = Some "database-locked") then this
  else if decide (Resp.action msg = Some "database-unlocked") then this
  else if decide (Resp.action msg = Some "attention-required") then focusKeeWebTab this
  else
    let this :=
      match _currentRequest this with
      | Some current =>
          let this := clearTimeout (Item.timeout current) this in
          let this := does (resolve (Item.promise current) msg) this in
          set_currentRequest None this
      | None => this
      end in
    processRequestQueue this.

(** *** [Backend.rejectPendingRequests] *)
Definition rejectPendingRequests (error : string) (this : Backend) : Backend :=
  let this :=
    match _currentRequest this with
    | Some current =>
        let this := clearTimeout (Item.timeout current) this in
        let this := does (reject (Item.promise current) error) this in
        set_currentRequest None this
    | None => this
    end in
  let this :=
    fold_left (fun this req => does (reject (Item.promise req) error) this)
      (_requestQueue this) this in
  set_requestQueue [] this.

(** [emit('connect-finished', e)]: every [once] listener registered by
    [connect] settles its caller's promise and is removed. *)
Definition emit_connect_finished_ (e : option string) (this : Backend) : Backend :=
  let this := does (emit_connect_finished e) this in
  let this :=
    fold_left (fun this caller =>
                 match e with
                 | Some message => does (connect_rejected caller message) this
                 | None => does (connect_resolved caller) this
                 end)
      (once_connect_finished this) this in
  set_once_connect_finished [] this.

(** *** [Backend.initTransport]; the ['disconnected'] and ['message']
    listeners it installs are [transport_disconnected] and
    [transportMessage]. *)
Definition initTransport (this : Backend) : Backend :=
  let transport :=
    if _useNativeApp this then TransportNativeMessaging
    else TransportBrowserTab (default _defaultKeeWebUrl (truthy (_keeWebUrl this))) in
  let this := does (new_transport transport) this in
  set_transport (Some transport) true this.

Definition transport_disconnected (this : Backend) : Backend :=
  let error :=
    if decide (_state this = Connecting) then
      let msgName :=
        if _useNativeApp this then "errorConnectionErrorApp"
        else "errorConnectionErrorWeb" in
      getMessage msgName
    else getMessage "errorKeeWebDisconnected" in
  let this := set_connectionError (Some error) this in
  let this := setState Error this in
  rejectPendingRequests error this.

(** *** [Backend.connect], in the pieces that run without interruption.

    [connect caller] is the part up to the first [await]. When it starts
    an attempt it is continued, once [Transport.connect] has settled, by
    a call of [request_] for the handshake (from [changePublicKeys]) and
    then by [connect_succeeded], or by [connect_failed] (the [catch]
    block) when anything was thrown. *)
Definition connect (caller : nat) (this : Backend) : Backend :=
  if decide (_state this = Connected) then
    does (connect_resolved caller) this
  else if decide (_state this = Connecting) then
    set_once_connect_finished (once_connect_finished this ++ [caller]) this
  else
    let this := rejectPendingRequests "Reconnecting" this in
    let this := set_connectionError None this in
    let this := setState Connecting this in
    let this := initTransport this in
    does transport_connect this.

Definition connect_succeeded (caller : nat) (this : Backend) : Backend :=
  let this := setState Connected this in
  let this := emit_connect_finished_ None this in
  does (connect_resolved caller) this.

Definition connect_failed (caller : nat) (message : string) (this : Backend) : Backend :=
  let this := set_connectionError (Some message) this in
  let this := setState Error this in
  let this := emit_connect_finished_ (Some message) this in
  does (connect_resolved caller) this.

(** *** The event loop: one event runs one piece of code to its end. *)
Inductive event :=
| ev_connect (caller : nat)
| ev_connect_succeeded (caller : nat)
| ev_connect_failed (caller : nat) (message : string)
| ev_request (r : KeeWebConnectRequest)
| ev_message (msg : KeeWebConnectResponse)
| ev_timeout (handle : nat)
| ev_disconnected.

Definition step (this : Backend) (e : event) : Backend :=
  match e with
  | ev_connect caller => connect caller this
  | ev_connect_succeeded caller => connect_succeeded caller this
  | ev_connect_failed caller message => connect_failed caller message this
  | ev_request r => request_ r this
  | ev_message msg => transportMessage msg this
  | ev_timeout handle => timeout_callback handle this
  | ev_disconnected => transport_disconnected this
  end.

Definition run (events : list event) (this : Backend) : Backend :=
  fold_left step events this.

Definition reachable (this : Backend) : Prop :=
  exists events, this = run events new_Backend.

End Backend.

(** *** Reading the effects *)

Definition is_settled (promise : nat) (e : effect) : bool :=
  match e with
  | resolve p _ => bool_decide (p = promise)
  | reject p _ => bool_decide (p = promise)
  | _ => false
  end.

Definition sent_promise (e : effect) : option nat :=
  match e with
  | transport_request p _ => Some p
  | _ => None
  end.

(** The requests that were given to the transport and whose promise has not
    been settled: dispatched and awaiting a response. *)
Definition awaiting_response (effects : list effect) : list nat :=
  filter (fun p => existsb (is_settled p) effects = false)
         (omap sent_promise effects).

(** ** A platform to run the definitions on *)

(** Modelled from the spec: [toBase64] and [fromBase64] of
    [background/utils], which is not among the sources. The specification
    says that [message] and [nonce] travel base64-encoded; this is the
    encoding of RFC 4648 with padding, four characters for three bytes. *)
Module Base64.
Definition alphabet : list ascii :=
  list_ascii_of_string
    "ABCDEFGHIJKLMNOPQRSTUVWXYZabcdefghijklmnopqrstuvwxyz0123456789+/".
Definition pad : ascii := "="%char.

Definition sextet_char (n : Z) : ascii := default pad (alphabet !! Z.to_nat n).

Definition char_sextet (c : ascii) : option Z :=
  match list_find (fun x => x = c) alphabet with
  | Some (i, _) => Some (Z.of_nat i)
  | None => None
  end.

Fixpoint encode (d : bytes) : list ascii :=
  match d with
  | a :: b :: c :: rest =>
      sextet_char (a / 4) :: sextet_char (a mod 4 * 16 + b / 16)
        :: sextet_char (b mod 16 * 4 + c / 64) :: sextet_char (c mod 64)
        :: encode rest
  | [a; b] =>
      [sextet_char (a / 4); sextet_char (a mod 4 * 16 + b / 16);
       sextet_char (b mod 16 * 4); pad]
  | [a] => [sextet_char (a / 4); sextet_char (a mod 4 * 16); pad; pad]
  | [] => []
  end.

Fixpoint decode (s : list ascii) : option bytes :=
  match s with
  | [] => Some []
  | c1 :: c2 :: c3 :: c4 :: rest =>
      match char_sextet c1, char_sextet c2 with
      | Some s1, Some s2 =>
          let b1 := s1 * 4 + s2 / 16 in
          if decide (c4 = pad) then
            match rest with
            | [] =>
                if decide (c3 = pad) then Some [b1]
                else match char_sextet c3 with
                     | Some s3 => Some [b1; s2 mod 16 * 16 + s3 / 4]
                     | None => None
                     end
            | _ => None
            end
          else
            match char_sextet c3, char_sextet c4, decode rest with
            | Some s3, Some s4, Some tail =>
                Some (b1 :: (s2 mod 16 * 16 + s3 / 4) :: (s3 mod 4 * 64 + s4) :: tail)
            | _, _, _ => None
            end
      | _, _ => None
      end
  | _ => None
  end.

Definition toBase64 (d : bytes) : string := string_of_list_ascii (encode d).
Definition fromBase64 (s : string) : option bytes := decode (list_ascii_of_string s).
End Base64.

(** The remaining members stand in for tweetnacl, the text codec, the JSON
    reader and the message catalogue, so that the methods can be evaluated:
    a box is the message behind a one-byte checksum over message, nonce and
    keys; a payload is read as an object whose [hash] is the text; a
    message name stands for its text. *)
Module Sample.
Definition checksum (msg nonce pk sk : bytes) : Z :=
  ToUint8 (foldr Z.add 0 (msg ++ nonce ++ pk ++ sk)).

Definition seal (msg nonce pk sk : bytes) : bytes :=
  checksum msg nonce pk sk :: msg.

Definition open (box nonce pk sk : bytes) : option bytes :=
  match box with
  | tag :: msg => if decide (tag = checksum msg nonce pk sk) then Some msg else None
  | [] => None
  end.

Definition chars (s : string) : bytes :=
  map (fun c => Z.of_nat (nat_of_ascii c)) (list_ascii_of_string s).

Definition text (d : bytes) : string :=
  string_of_list_ascii (map (fun b => ascii_of_nat (Z.to_nat b)) d).

Definition parse (s : string) : json_value :=
  if decide (s = "") then JSyntaxError
  else if decide (s = "null") then JNull
  else JObject (Resp.mk None None None None None None (Some s)).

#[global] Instance platform : Platform := {|
  toBase64 := Base64.toBase64;
  fromBase64 := Base64.fromBase64;
  crypto_box := seal;
  crypto_box_open := open;
  encode_json := fun payload => chars (Req.action payload);
  utf8_decode := text;
  JSON_parse := parse;
  getMessage := fun name => name
|}.

Definition key32 (b : Z) : bytes := repeat b 32.

(** A protocol object before and after the handshake. *)
Definition fresh : ProtocolImpl :=
  @new_ProtocolImpl [1; 2; 3] {| publicKey := key32 7; secretKey := key32 9 |} platform.

Definition paired : ProtocolImpl :=
  {| _clientId := _clientId fresh; _ownKeys := _ownKeys fresh;
     _keewebPublicKey := Some (key32 5) |}.

Definition nonce0 : bytes := repeat 255 2 ++ repeat 0 22.
Definition nonce1 : bytes := increment nonce0.

Definition get_databasehash : KeeWebConnectRequest :=
  Req.mk "get-databasehash" None None None None.

Definition change_public_keys : KeeWebConnectRequest :=
  Req.mk "change-public-keys" None (Some "AAAA") (Some "AQID") (Some "BwcH").

Definition request0 : KeeWebConnectEncryptedRequest :=
  EncReq.mk "get-databasehash" "" (Base64.toBase64 nonce0) "AQID".

(** A response that opens under the keys of [paired] and [nonce1], and the
    same box with its checksum off by one. *)
Definition good_box : bytes := seal (chars "cafe") nonce1 (key32 5) (key32 9).
Definition forged_box : bytes :=
  match good_box with
  | tag :: msg => ToUint8 (tag + 1) :: msg
  | [] => []
  end.

Definition response_with (message nonce : option string) : KeeWebConnectResponse :=
  Resp.mk None message nonce None None None None.

Definition good_response : KeeWebConnectResponse :=
  response_with (Some (Base64.toBase64 good_box)) (Some (Base64.toBase64 nonce1)).
Definition forged_response : KeeWebConnectResponse :=
  response_with (Some (Base64.toBase64 forged_box)) (Some (Base64.toBase64 nonce1)).
Definition replayed_response : KeeWebConnectResponse :=
  response_with (Some (Base64.toBase64 good_box)) (Some (Base64.toBase64 nonce0)).
Definition plain_ack : KeeWebConnectResponse :=
  Resp.mk None None None (Some "BQUF") None None None.
End Sample.

(** Whether a message contains a colon: the messages built by
    [checkResponseError] do, the one of [validateNonce] does not. *)
Fixpoint has_colon (s : string) : bool :=
  match s with
  | EmptyString => false
  | String c rest => if decide (c = ":"%char) then true else has_colon rest
  end.

(** The promises whose requests reached the transport, in that order, and
    behind them the promises still queued. [request_] numbers the promises
    in the order of submission. *)
Definition sent (effects : list effect) : list nat := omap sent_promise effects.

Definition sent_then_queued (this : Backend) : list nat :=
  sent (log this) ++ map Item.promise (_requestQueue this).

Definition in_submission_order (this : Backend) : Prop :=
  sent_then_queued this `sublist_of` seq 0 (next_id this).

(** A step that submits nothing: it numbers no new promise and at most drops
    promises from the queue. *)
Definition submits_nothing (before after : Backend) : Prop :=
  next_id after = next_id before /\
  sent_then_queued after `sublist_of` sent_then_queued before.

(** The notifications KeeWeb sends on its own; [transportMessage] matches
    them to no request. *)
Definition unsolicited (msg : KeeWebConnectResponse) : Prop :=
  Resp.action msg = Some "database-locked" \/
  Resp.action msg = Some "database-unlocked" \/
  Resp.action msg = Some "attention-required".

Definition is_settlement (e : effect) : bool :=
  match e with
  | resolve _ _ | reject _ _ => true
  | _ => false
  end.



(** *** Sample runs of the connection manager *)
Module Scenario.
Import Sample.

Definition handshake_ack : KeeWebConnectResponse := plain_ack.

Definition get_logins (url : string) : KeeWebConnectRequest :=
  Req.mk "get-logins" (Some url) (Some "AAAA") (Some "AQID") None.

Definition answer (text : string) : KeeWebConnectResponse :=
  response_with (Some text) (Some "AAAB").

(** A first connection: [connect], the handshake request (promise 0), its
    answer, the end of [connect]. *)
Definition connected : list event :=
  [ev_connect 100; ev_request change_public_keys; ev_message handshake_ack;
   ev_connect_succeeded 100].

(** Request 1 times out; request 2 is sent; the answer to request 1
    arrives late. *)
Definition late_answer : list event :=
  connected ++
  [ev_request (get_logins "a"); ev_timeout 1;
   ev_request (get_logins "b"); ev_message (answer "to a")].

(** Requests 1 (sent) and 2 (queued) are rejected by a disconnect, which
    leaves the timer of request 2 running. After the reconnection (the
    handshake is promise 3) request 4 is sent, the timer of request 2
    fires, and request 5 is submitted. *)
Definition stale_timer : list event :=
  connected ++
  [ev_request (get_logins "a"); ev_request (get_logins "b"); ev_disconnected;
   ev_connect 101; ev_request change_public_keys; ev_message handshake_ack;
   ev_connect_succeeded 101;
   ev_request (get_logins "c"); ev_timeout 2; ev_request (get_logins "d")].
End Scenario.

(** ** Configuration of the connection manager *)

Definition set_useNativeApp v (b : Backend) : Backend :=
  {| _useNativeApp := v; _keeWebUrl := _keeWebUrl b; _state := _state b;
     _connectionError := _connectionError b; _transport := _transport b;
     _requestQueue := _requestQueue b; _currentRequest := _currentRequest b;
     _protocol := _protocol b; timers := timers b;
     once_connect_finished := once_connect_finished b; next_id := next_id b;
     log := log b |}.
Definition set_keeWebUrl v (b : Backend) : Backend :=
  {| _useNativeApp := _useNativeApp b; _keeWebUrl := v; _state := _state b;
     _connectionError := _connectionError b; _transport := _transport b;
     _requestQueue := _requestQueue b; _currentRequest := _currentRequest b;
     _protocol := _protocol b; timers := timers b;
     once_connect_finished := once_connect_finished b; next_id := next_id b;
     log := log b |}.

(** The getter [Backend.keeWebUrl]. *)
Definition keeWebUrl (this : Backend) : string :=
  default _defaultKeeWebUrl (truthy (_keeWebUrl this)).

(** [Backend.resetStateByConfig] *)
Definition resetStateByConfig (this : Backend) : Backend :=
  let this := set_connectionError None this in
  setState BackendConnectionState.ReadyToConnect this.

(** [Backend.init]: the callback of [chrome.storage.local.get], with the two
    stored values ([undefined] when a key is not stored). *)
Definition init_loaded (useNativeApp : option bool) (keeWebUrl : option string)
    (this : Backend) : Backend :=
  let this := set_useNativeApp (default true useNativeApp) this in      (* ?? true *)
  let this := set_keeWebUrl keeWebUrl this in
  resetStateByConfig this.

(** The [changes] object given to [storageChanged]: for each of the two
    keys, whether it changed and its [newValue] ([undefined] when the key
    was removed). An [undefined] [_useNativeApp] is falsy wherever the
    field is read, and is stored as [false]. *)
Record StorageChanges := {
  changed_useNativeApp : option (option bool);
  changed_keeWebUrl : option (option string)
}.

(** What [storageChanged] asks of the transport it drops. *)
Inductive teardown :=
| transport_removeAllListeners
| transport_disconnect.

(** The first statement of [storageChanged]; [None] is the [return]. *)
Definition storageChanged_config (changes : StorageChanges) (this : Backend)
    : option Backend :=
  match changed_useNativeApp changes with
  | Some newValue => Some (set_useNativeApp (default false newValue) this)
  | None =>
      match changed_keeWebUrl changes with
      | Some newValue => Some (set_keeWebUrl newValue this)
      | None => None
      end
  end.

(** The last two statements of [storageChanged]. *)
Definition storageChanged_finish (this : Backend) : Backend :=
  let this := resetStateByConfig this in
  rejectPendingRequests "Config changed" this.

(** [Backend.storageChanged] up to its [await]: with a transport it stops
    after asking it to disconnect; without one it runs to its end. *)
Definition storageChanged (changes : StorageChanges) (this : Backend)
    : Backend * list teardown :=
  match storageChanged_config changes this with
  | None => (this, [])
  | Some this =>
      match _transport this with
      | Some _ => (this, [transport_removeAllListeners; transport_disconnect])
      | None => (storageChanged_finish this, [])
      end
  end.

(** [Backend.storageChanged] after [disconnect] has resolved. *)
Definition storageChanged_resumed (this : Backend) : Backend :=
  let this := set_transport None (_protocol this) this in
  storageChanged_finish this.

(** *** The event loop with the configuration events *)
Inductive lifecycle_event :=
| lc_event (e : event)
| lc_init (useNativeApp : option bool) (keeWebUrl : option string)
| lc_storageChanged (changes : StorageChanges)
| lc_storageChanged_resumed.

Definition lifecycle_step `{Platform} (this : Backend) (e : lifecycle_event) : Backend :=
  match e with
  | lc_event e => step this e
  | lc_init useNativeApp keeWebUrl => init_loaded useNativeApp keeWebUrl this
  | lc_storageChanged changes => fst (storageChanged changes this)
  | lc_storageChanged_resumed => storageChanged_resumed this
  end.

Definition lifecycle_reachable `{Platform} (this : Backend) : Prop :=
  exists events, this = fold_left lifecycle_step events new_Backend.

(** The requests the object still holds: the one in the slot, then the
    queue. *)
Definition pending (this : Backend) : list RequestQueueItem :=
  option_list (_currentRequest this) ++ _requestQueue this.

(** A promise is guarded when it is settled already or its timer is still
    running. *)
Definition guarded (this : Backend) (promise : nat) : Prop :=
  (promise, promise) ∈ timers this \/
  existsb (is_settled promise) (log this) = true.

(** What every run keeps: a timer names its own promise, so does every
    request held, the requests held are in the order of submission, and every
    promise handed out is guarded. *)
Definition well_kept (this : Backend) : Prop :=
  Forall (fun t : nat * nat => fst t = snd t) (timers this) /\
  Forall (fun item => Item.timeout item = Item.promise item) (pending this) /\
  map Item.promise (pending this) `sublist_of` seq 0 (next_id this) /\
  (forall promise, (promise < next_id this)%nat -> guarded this promise).

(** A step that hands out no promise: requests and timers can only go, the
    effects only grow, and a timer that goes leaves its promise settled. *)
Definition quiet (before after : Backend) : Prop :=
  next_id after = next_id before /\
  pending after `sublist_of` pending before /\
  (exists effs, log after = log before ++ effs) /\
  (forall t, t ∈ timers after -> t ∈ timers before) /\
  (forall t, t ∈ timers before -> t ∉ timers after ->
             existsb (is_settled (snd t)) (log after) = true).

(** ** The context menu ([background/ui.ts]) *)

(** The fields of [chrome.contextMenus.OnClickData] that the click listener
    of [createUIMenus] reads. *)
Record OnClickData := {
  editable : bool;
  menuItemId : string;
  frameId : option Z;
  frameUrl : option string;
  pageUrl : option string
}.

(** The argument of [runCommand], without the tab, which is passed on as it
    came. *)
Record CommandArgs := {
  arg_command : string;
  arg_url : option string;
  arg_frameId : Z
}.

(** The click listener: [None] when it returns without running a command. *)
Definition onClicked (e : OnClickData) : option CommandArgs :=
  if negb (editable e) then None
  else
    let command := menuItemId e in
    let url :=
      match frameId e with
      | Some id => if decide (id = 0) then pageUrl e else frameUrl e
      | None => pageUrl e
      end in
    let frameId := default 0 (frameId e) in                  (* ?? 0 *)
    Some {| arg_command := command; arg_url := url; arg_frameId := frameId |}.

(** * Properties *)

(** ** The increment loop *)

Lemma ToUint8_mod c : ToUint8 c = c mod 256.
Proof. unfold ToUint8. change 255 with (Z.ones 8). rewrite Z.land_ones by lia. reflexivity. Qed.

Lemma ToUint8_is_byte c : is_byte (ToUint8 c).
Proof. rewrite ToUint8_mod. unfold is_byte. apply Z.mod_pos_bound. lia. Qed.

Lemma shiftr8_div c : Z.shiftr c 8 = c / 256.
Proof. rewrite Z.shiftr_div_pow2 by lia. reflexivity. Qed.

Lemma increment_loop_add_carry (rest done : bytes) (c : Z) :
  increment_loop (length rest) (length done) c (done ++ rest)
  = done ++ add_carry c rest.
Proof.
  revert done c. induction rest as [|b rest IH]; intros done c;
    cbn [increment_loop length add_carry].
  - reflexivity.
  - rewrite lookup_app_r by lia. rewrite Nat.sub_diag. cbn [lookup list_lookup].
    rewrite insert_app_r_alt by lia. rewrite Nat.sub_diag. cbn [insert list_insert].
    specialize (IH (done ++ [ToUint8 (c + b)]) (Z.shiftr (c + b) 8)).
    rewrite length_app in IH. simpl in IH.
    replace (length done + 1)%nat with (S (length done)) in IH by lia.
    rewrite <- !app_assoc in IH. simpl in IH. exact IH.
Qed.

Lemma increment_add_carry (d : bytes) : increment d = add_carry 1 d.
Proof. exact (increment_loop_add_carry d [] 1). Qed.

Lemma add_carry_length c d : length (add_carry c d) = length d.
Proof. revert c. induction d as [|b d IH]; intros c; simpl; [reflexivity|]. now rewrite IH. Qed.

Lemma add_carry_bytes c d : Forall is_byte (add_carry c d).
Proof.
  revert c. induction d as [|b d IH]; intros c; simpl; constructor.
  - apply ToUint8_is_byte.
  - apply IH.
Qed.

Lemma le_value_bound d : Forall is_byte d -> 0 <= le_value d < 256 ^ Z.of_nat (length d).
Proof.
  induction 1 as [|b d Hb _ IH]; simpl le_value.
  - simpl. lia.
  - rewrite length_cons, Nat2Z.inj_succ, Z.pow_succ_r by lia.
    unfold is_byte in Hb. lia.
Qed.

(** Nothing is lost: the result and the outgoing carry together hold the sum. *)
Lemma add_carry_value c d :
  le_value (add_carry c d) + 256 ^ Z.of_nat (length d) * carry_out c d = c + le_value d.
Proof.
  revert c. induction d as [|b d IH]; intros c; simpl add_carry; simpl carry_out; simpl le_value.
  - simpl. lia.
  - rewrite length_cons, Nat2Z.inj_succ, Z.pow_succ_r by lia.
    specialize (IH (Z.shiftr (c + b) 8)).
    rewrite ToUint8_mod. rewrite shiftr8_div in *.
    pose proof (Z.div_mod (c + b) 256 ltac:(lia)). lia.
Qed.

(** ** Claim C2 *)

(** C2. For every byte sequence N the successor computed by the loop of
    [validateNonce] has the length of N, consists of bytes, and read as a
    little-endian number equals (N + 1) modulo 256^(length N): one is added
    with the carry moving through all the bytes and the carry out of the
    last byte is dropped. In particular the successor of n bytes 0xFF is
    n bytes 0x00. *)
Theorem C2_increment_little_endian_successor :
  (forall N : bytes,
      length (increment N) = length N /\
      Forall is_byte (increment N) /\
      le_value (increment N) = (le_value N + 1) mod 256 ^ Z.of_nat (length N)) /\
  (forall n : nat, increment (repeat 255 n) = repeat 0 n).
Proof.
  split.
  - intros N. rewrite increment_add_carry. split; [apply add_carry_length|].
    split; [apply add_carry_bytes|].
    pose proof (add_carry_value 1 N) as Hsum.
    pose proof (le_value_bound _ (add_carry_bytes 1 N)) as Hb.
    rewrite add_carry_length in Hb.
    apply Z.mod_unique with (q := carry_out 1 N); lia.
  - intros n. rewrite increment_add_carry.
    induction n as [|n IH]; simpl; [reflexivity|].
    change (Z.shiftr (1 + 255) 8) with 1. rewrite IH. reflexivity.
Qed.

(** ** The base64 model decodes what it encodes *)

Ltac div_lia := Z.div_mod_to_equations; lia.

Lemma sextet_round_trip n :
  0 <= n < 64 ->
  Base64.char_sextet (Base64.sextet_char n) = Some n /\
  Base64.sextet_char n <> Base64.pad.
Proof.
  intros Hn.
  assert (Hall : forallb (fun i : nat =>
            bool_decide (Base64.char_sextet (Base64.sextet_char (Z.of_nat i))
                         = Some (Z.of_nat i))
            && bool_decide (Base64.sextet_char (Z.of_nat i) <> Base64.pad))
            (seq 0 64) = true) by (vm_compute; reflexivity).
  rewrite forallb_forall in Hall.
  specialize (Hall (Z.to_nat n)). rewrite Z2Nat.id in Hall by lia.
  assert (Hin : In (Z.to_nat n) (seq 0 64)) by (apply in_seq; lia).
  apply Hall in Hin. apply andb_prop in Hin as [H1 H2].
  apply bool_decide_eq_true in H1, H2. auto.
Qed.

Lemma decode_encode d : Forall is_byte d -> Base64.decode (Base64.encode d) = Some d.
Proof.
  intros Hd. remember (length d) as n eqn:Hn. revert d Hd Hn.
  induction (lt_wf n) as [n _ IH]. intros d Hd Hn.
  destruct d as [|a [|b [|c rest]]].
  - reflexivity.
  - apply Forall_cons in Hd as [Ha _]. unfold is_byte in Ha.
    cbn [Base64.encode Base64.decode].
    destruct (sextet_round_trip (a / 4)) as [-> _]; [div_lia|].
    destruct (sextet_round_trip (a mod 4 * 16)) as [-> _]; [div_lia|].
    rewrite !decide_True by reflexivity. f_equal. f_equal. div_lia.
  - apply Forall_cons in Hd as [Ha Hd]. apply Forall_cons in Hd as [Hb _].
    unfold is_byte in Ha, Hb.
    cbn [Base64.encode Base64.decode].
    destruct (sextet_round_trip (a / 4)) as [-> _]; [div_lia|].
    destruct (sextet_round_trip (a mod 4 * 16 + b / 16)) as [-> _]; [div_lia|].
    destruct (sextet_round_trip (b mod 16 * 4)) as [-> Hp]; [div_lia|].
    rewrite decide_True by reflexivity. rewrite decide_False by exact Hp.
    f_equal. f_equal; [div_lia|]. f_equal. div_lia.
  - apply Forall_cons in Hd as [Ha Hd]. apply Forall_cons in Hd as [Hb Hd].
    apply Forall_cons in Hd as [Hc Hd]. unfold is_byte in Ha, Hb, Hc.
    cbn [Base64.encode Base64.decode].
    destruct (sextet_round_trip (a / 4)) as [-> _]; [div_lia|].
    destruct (sextet_round_trip (a mod 4 * 16 + b / 16)) as [-> _]; [div_lia|].
    destruct (sextet_round_trip (b mod 16 * 4 + c / 64)) as [-> _]; [div_lia|].
    destruct (sextet_round_trip (c mod 64)) as [-> Hp]; [div_lia|].
    rewrite decide_False by exact Hp.
    rewrite (IH (length rest)) with (d := rest); [|simpl in Hn; lia|exact Hd|reflexivity].
    f_equal. f_equal; [div_lia|]. f_equal; [div_lia|]. f_equal. div_lia.
Qed.

Lemma fromBase64_toBase64 d :
  Forall is_byte d -> Base64.fromBase64 (Base64.toBase64 d) = Some d.
Proof.
  intros Hd. unfold Base64.fromBase64, Base64.toBase64.
  rewrite list_ascii_of_string_of_list_ascii. now apply decode_encode.
Qed.

(** ** The protocol: claims C1, C6, C7, C8, C9 *)

Lemma has_colon_app a b : has_colon (a +:+ b) = has_colon a || has_colon b.
Proof.
  induction a as [|c a IH]; simpl; [reflexivity|].
  destruct (decide (c = ":"%char)); [reflexivity|exact IH].
Qed.

Lemma app_error_not_bad_nonce (locErr resErr : string) :
  Error (locErr +:+ ": " +:+ resErr) <> Error "Bad nonce in response".
Proof.
  intros Heq. injection Heq as Heq. apply (f_equal has_colon) in Heq.
  rewrite has_colon_app in Heq. simpl in Heq.
  rewrite orb_true_r in Heq. discriminate.
Qed.

Section ProtocolFacts.
Context `{Platform}.

Lemma checkResponseError_not_bad_nonce response :
  checkResponseError response <> Throw (Error "Bad nonce in response").
Proof.
  unfold checkResponseError. destruct (truthy (Resp.error response)); [|discriminate].
  intros Heq. injection Heq as Heq.
  exact (app_error_not_bad_nonce _ _ (f_equal Error Heq)).
Qed.

Lemma fieldFromBase64_not_bad_nonce base64 fieldName :
  fieldName = "message" \/ fieldName = "nonce" ->
  fieldFromBase64 base64 fieldName <> Throw (Error "Bad nonce in response").
Proof.
  unfold fieldFromBase64. intros [-> | ->];
    destruct (truthy base64) as [s|]; try destruct (fromBase64 s); discriminate.
Qed.

Lemma tweetnaclBox_open_throws box nonce publicKey secretKey e :
  tweetnaclBox_open box nonce publicKey secretKey = Throw e -> exists n, e = NaclError n.
Proof.
  unfold tweetnaclBox_open, checkBoxArguments.
  destruct publicKey as [pk|]; simpl.
  - repeat match goal with
           | |- context [if ?b then _ else _] => destruct b; simpl
           end; intros [= <-] || discriminate; eauto.
  - intros [= <-]. eauto.
Qed.

(** What [validateNonce] decides, once the request's nonce decodes. *)
Lemma validateNonce_spec nonce incrementedNonce nonceData :
  fromBase64 nonce = Some nonceData ->
  validateNonce nonce incrementedNonce =
    if decide (Some (toBase64 (increment nonceData)) = incrementedNonce)
    then Ok tt else Throw (Error "Bad nonce in response").
Proof. intros Hd. unfold validateNonce. rewrite Hd. reflexivity. Qed.

(** Everything after the nonce check fails, if it fails, with something
    else than the nonce error. *)
Lemma after_validation_not_bad_nonce this response :
  (let* message := fieldFromBase64 (Resp.message response) "message" in
   let* nonce := fieldFromBase64 (Resp.nonce response) "nonce" in
   let* data :=
     tweetnaclBox_open message nonce (_keewebPublicKey this)
       (secretKey (_ownKeys this)) in
   let* json := TextDecoder_decode data in
   match JSON_parse json with
   | JSyntaxError => Throw JSONSyntaxError
   | JNull => Throw PropertyOfNullish
   | JObject payload =>
       let* checked := checkResponseError payload in
       Ok (Some checked)
   end) <> Throw (Error "Bad nonce in response").
Proof.
  destruct (fieldFromBase64 (Resp.message response) "message") as [message|e] eqn:Hm;
    simpl.
  2:{ intros [= ->]. revert Hm. apply fieldFromBase64_not_bad_nonce. auto. }
  destruct (fieldFromBase64 (Resp.nonce response) "nonce") as [nonce|e] eqn:Hn; simpl.
  2:{ intros [= ->]. revert Hn. apply fieldFromBase64_not_bad_nonce. auto. }
  destruct (tweetnaclBox_open message nonce _ _) as [data|e] eqn:Hb; simpl.
  2:{ apply tweetnaclBox_open_throws in Hb as [n ->]. discriminate. }
  destruct data as [data|]; simpl; [|discriminate].
  destruct (JSON_parse (utf8_decode data)) as [| |payload]; try discriminate.
  destruct (checkResponseError payload) as [checked|e] eqn:Hc; simpl; [discriminate|].
  intros [= ->]. revert Hc. apply checkResponseError_not_bad_nonce.
Qed.

(** C1. For a request whose nonce decodes to [nonceData] (every request
    built by [makeEncryptedRequest] is one) and a response with a
    non-empty [message], [decryptResponsePayload] throws
    [Error('Bad nonce in response')] exactly when the [nonce] field of the
    response is not the base64 text of the successor of the request's
    nonce. Nothing about the ciphertext enters: a box that would open is
    refused all the same when the nonce field is wrong. *)
Theorem C1_bad_nonce_iff_not_successor
    (this : ProtocolImpl) (request : KeeWebConnectEncryptedRequest)
    (response : KeeWebConnectResponse) (nonceData : bytes) :
  fromBase64 (EncReq.nonce request) = Some nonceData ->
  truthy (Resp.message response) <> None ->
  decryptResponsePayload this request response = Throw (Error "Bad nonce in response")
  <-> Resp.nonce response <> Some (toBase64 (increment nonceData)).
Proof.
  intros Hd Hm. unfold decryptResponsePayload.
  destruct (truthy (Resp.message response)) as [m|]; [clear Hm|congruence].
  rewrite (validateNonce_spec _ _ _ Hd).
  destruct (decide (Some (toBase64 (increment nonceData)) = Resp.nonce response))
    as [Heq|Hne]; cbn [bind].
  - split.
    + intros Hthrow. exfalso.
      exact (after_validation_not_bad_nonce this response Hthrow).
    + intros Hne. congruence.
  - split; [congruence|reflexivity].
Qed.

(** Requests built by [makeEncryptedRequest] carry the base64 text of the
    nonce that was drawn. *)
Lemma makeEncryptedRequest_nonce this payload nonce request :
  makeEncryptedRequest this payload nonce = Ok request ->
  EncReq.nonce request = toBase64 nonce /\ length nonce = 24%nat.
Proof.
  unfold makeEncryptedRequest, tweetnaclBox, checkBoxArguments.
  destruct (_keewebPublicKey this); simpl; [|discriminate].
  repeat match goal with
         | |- context [if negb ?b then _ else _] => destruct b eqn:?; simpl
         end; try discriminate.
  intros [= <-]. simpl. split; [reflexivity|]. now apply Nat.eqb_eq.
Qed.

(** C6, amended. When the nonce check passes and both fields decode, but
    [nacl.box.open] returns [null] for the box under the own secret key,
    the peer's public key and the decoded nonce, [decryptResponsePayload]
    fails and returns no payload. The code does not look at the result of
    [nacl.box.open] and raises no decrypt error of its own: what is thrown
    is the [TypeError] with which the text decoder refuses the [null]. *)
Theorem C6_decryption_failure_throws
    (this : ProtocolImpl) (request : KeeWebConnectEncryptedRequest)
    (response : KeeWebConnectResponse) (message nonce : bytes) :
  validateNonce (EncReq.nonce request) (Resp.nonce response) = Ok tt ->
  fieldFromBase64 (Resp.message response) "message" = Ok message ->
  fieldFromBase64 (Resp.nonce response) "nonce" = Ok nonce ->
  tweetnaclBox_open message nonce (_keewebPublicKey this) (secretKey (_ownKeys this))
    = Ok None ->
  decryptResponsePayload this request response = Throw TextDecoderTypeError.
Proof.
  intros Hv Hm Hn Hopen. unfold decryptResponsePayload.
  destruct (truthy (Resp.message response)) as [m|] eqn:Ht.
  - rewrite Hv, Hm, Hn. cbn [bind]. rewrite Hopen. reflexivity.
  - unfold fieldFromBase64 in Hm. rewrite Ht in Hm. discriminate.
Qed.


(** C8. A response whose [message] is missing or is the empty string makes
    [decryptResponsePayload] return [undefined] without throwing, whatever
    the request and the other fields of the response are. *)
Theorem C8_no_message_returns_undefined
    (this : ProtocolImpl) (request : KeeWebConnectEncryptedRequest)
    (action nonce publicKey error errorCode hash : option string) :
  decryptResponsePayload this request
    (Resp.mk action None nonce publicKey error errorCode hash) = Ok None /\
  decryptResponsePayload this request
    (Resp.mk action (Some "") nonce publicKey error errorCode hash) = Ok None.
Proof. split; reflexivity. Qed.

(** C9. With [message] missing, [validateNonce] is not consulted: the
    response is accepted as [undefined] for every nonce of the request
    and every [nonce] field of the response, also where [validateNonce]
    on the same two values throws. *)
Theorem C9_no_message_no_nonce_validation
    (this : ProtocolImpl) (request : KeeWebConnectEncryptedRequest)
    (response : KeeWebConnectResponse) :
  Resp.message response = None ->
  decryptResponsePayload this request response = Ok None /\
  (forall e,
      validateNonce (EncReq.nonce request) (Resp.nonce response) = Throw e ->
      decryptResponsePayload this request response <> Throw e).
Proof.
  intros Hm. unfold decryptResponsePayload. rewrite Hm. simpl.
  split; [reflexivity|discriminate].
Qed.

End ProtocolFacts.

(** *** The protocol claims on the sample platform *)

Lemma C1_witness :
  let expected := toBase64 (increment Sample.nonce0) in
  (decryptResponsePayload Sample.paired Sample.request0
     Sample.replayed_response = Throw (Error "Bad nonce in response")
   <-> Resp.nonce Sample.replayed_response <> Some expected).
Proof.
  apply (C1_bad_nonce_iff_not_successor Sample.paired Sample.request0
           Sample.replayed_response Sample.nonce0).
  - vm_compute. reflexivity.
  - vm_compute. discriminate.
Defined.

Lemma C6_witness :
  decryptResponsePayload Sample.paired Sample.request0
    Sample.forged_response = Throw TextDecoderTypeError.
Proof.
  apply (C6_decryption_failure_throws Sample.paired Sample.request0
           Sample.forged_response Sample.forged_box Sample.nonce1);
    vm_compute; reflexivity.
Defined.


(** The claim C6 as it is worded fails on [Sample.forged_response]: the box
    does not open, and the failure is not an error raised by the code (an
    [Error] with a message, as its other failures are) but the text
    decoder's. *)
Lemma C6_failure_is_not_an_error_of_the_code :
  tweetnaclBox_open Sample.forged_box Sample.nonce1
    (_keewebPublicKey Sample.paired) (secretKey (_ownKeys Sample.paired)) = Ok None /\
  decryptResponsePayload Sample.paired Sample.request0 Sample.forged_response
    = Throw TextDecoderTypeError /\
  (forall message,
      decryptResponsePayload Sample.paired Sample.request0 Sample.forged_response
      <> Throw (Error message)).
Proof.
  assert (Hthrown : decryptResponsePayload Sample.paired Sample.request0
                      Sample.forged_response = Throw TextDecoderTypeError)
    by (vm_compute; reflexivity).
  split; [vm_compute; reflexivity|]. split; [exact Hthrown|].
  intros message. rewrite Hthrown. discriminate.
Qed.


Lemma C9_witness :
  decryptResponsePayload Sample.paired Sample.request0
    (Sample.response_with None (Some "not base64")) = Ok None.
Proof.
  apply (C9_no_message_no_nonce_validation Sample.paired Sample.request0
           (Sample.response_with None (Some "not base64"))).
  reflexivity.
Defined.

(** ** The connection manager: claims C3, C4, C5, C10 *)

Lemma fold_left_does {A} (f : A -> effect) (l : list A) (this : Backend) :
  fold_left (fun this x => does (f x) this) l this
  = set_log (log this ++ map f l) this.
Proof.
  revert this. induction l as [|x l IH]; intros this; simpl.
  - rewrite app_nil_r. destruct this; reflexivity.
  - rewrite IH. unfold does, set_log; simpl. rewrite <- app_assoc. reflexivity.
Qed.


Lemma setState_log state this :
  log (setState state this)
  = log this ++ (if decide (_state this = state) then [] else [emit_state_changed]).
Proof.
  unfold setState. destruct (decide (_state this = state)) as [Heq|Hne].
  - rewrite decide_False by tauto. now rewrite app_nil_r.
  - rewrite decide_True by exact Hne. reflexivity.
Qed.

(** C10. [setState] emits ['state-changed'] exactly when the new state
    differs from the current one, and then stores it; called with the
    current state it leaves the object as it is and emits nothing. *)
Theorem C10_setState_emits_iff_changed
    (state : BackendConnectionState.t) (this : Backend) :
  log (setState state this)
    = log this ++ (if decide (_state this = state) then [] else [emit_state_changed]) /\
  (In emit_state_changed (drop (length (log this)) (log (setState state this)))
     <-> _state this <> state) /\
  _state (setState state this) = state /\
  (_state this = state -> setState state this = this).
Proof.
  unfold setState.
  destruct (decide (_state this = state)) as [Heq|Hne].
  - rewrite decide_False by tauto. rewrite app_nil_r, drop_all.
    repeat split; try tauto.
  - rewrite decide_True by exact Hne. simpl.
    rewrite drop_app_length. repeat split; simpl; tauto.
Qed.

Section BackendFacts.
Context `{Platform}.
Import BackendConnectionState.

Lemma processRequestQueue_dispatches_iff this :
  match _requestQueue this with
  | [] => processRequestQueue this = this
  | head :: rest =>
      (may_dispatch this head ->
       processRequestQueue this =
         sendTransportRequest head
           (set_currentRequest (Some head) (set_requestQueue rest this))) /\
      (~ may_dispatch this head -> processRequestQueue this = this)
  end.
Proof.
  unfold processRequestQueue, may_dispatch.
  destruct (_requestQueue this) as [|head rest];
    destruct (_currentRequest this) as [cur|]; try reflexivity.
  - split; [intros [? _]; discriminate|reflexivity].
  - destruct (decide (_state this = Connecting)) as [Hc|Hc].
    + destruct (bool_decide_reflect
                  (Req.action (Item.request head) = "change-public-keys")) as [Ha|Ha];
        simpl; split; try reflexivity.
      * intros Hn. exfalso. apply Hn. auto.
      * intros [_ [Hs|[_ Hs]]]; [congruence|contradiction].
    + destruct (decide (_state this <> Connected)) as [Hn|Hn]; split; try reflexivity.
      * intros [_ [Hs|[Hs _]]]; contradiction.
      * intros Hd. exfalso. apply Hd. split; [reflexivity|].
        left. destruct (decide (_state this = Connected)); tauto.
Qed.


Lemma rejectPendingRequests_log error this :
  exists effs, log (rejectPendingRequests error this) = log this ++ effs /\
               Forall (fun e => is_settlement e = true) effs.
Proof.
  unfold rejectPendingRequests. rewrite fold_left_does.
  destruct (_currentRequest this) as [cur|]; simpl.
  - eexists. rewrite <- app_assoc. split; [reflexivity|].
    constructor; [reflexivity|]. apply Forall_map, Forall_true. reflexivity.
  - eexists. split; [reflexivity|]. apply Forall_map, Forall_true. reflexivity.
Qed.





Lemma emit_connect_finished_log e this :
  log (emit_connect_finished_ e this)
  = log this ++ emit_connect_finished e
      :: map (fun caller => match e with
                            | Some message => connect_rejected caller message
                            | None => connect_resolved caller
                            end) (once_connect_finished this).
Proof.
  unfold emit_connect_finished_.
  destruct e as [message|]; rewrite fold_left_does; simpl;
    rewrite <- app_assoc; reflexivity.
Qed.





(** *** The order of dispatch *)

Lemma sent_app l1 l2 : sent (l1 ++ l2) = sent l1 ++ sent l2.
Proof. apply omap_app. Qed.

Lemma sent_settlements effs :
  Forall (fun e => is_settlement e = true) effs -> sent effs = [].
Proof.
  induction 1 as [|e effs He _ IH]; [reflexivity|].
  destruct e; try discriminate; exact IH.
Qed.

Lemma submits_nothing_refl this : submits_nothing this this.
Proof. split; reflexivity. Qed.

Lemma submits_nothing_trans a b c :
  submits_nothing a b -> submits_nothing b c -> submits_nothing a c.
Proof.
  intros [Hn1 Hs1] [Hn2 Hs2]. split; [congruence|]. now transitivity (sent_then_queued b).
Qed.

Lemma submits_nothing_same a b :
  next_id b = next_id a -> log b = log a -> _requestQueue b = _requestQueue a ->
  submits_nothing a b.
Proof.
  intros Hn Hl Hq. split; [exact Hn|]. unfold sent_then_queued. now rewrite Hl, Hq.
Qed.

Lemma submits_nothing_does e this :
  sent_promise e = None -> submits_nothing this (does e this).
Proof.
  intros He. split; [reflexivity|]. unfold sent_then_queued. simpl.
  rewrite sent_app. unfold sent at 2. simpl. rewrite He. simpl. now rewrite app_nil_r.
Qed.

Lemma submits_nothing_order before after :
  submits_nothing before after -> in_submission_order before -> in_submission_order after.
Proof.
  unfold in_submission_order. intros [Hn Hs] Ho. rewrite Hn. now transitivity (sent_then_queued before).
Qed.

Lemma setState_submits_nothing state this : submits_nothing this (setState state this).
Proof.
  unfold setState. destruct (decide _); [|apply submits_nothing_refl].
  apply (submits_nothing_trans _ (set_state state this)).
  - now apply submits_nothing_same.
  - now apply submits_nothing_does.
Qed.

Lemma processRequestQueue_submits_nothing this :
  submits_nothing this (processRequestQueue this).
Proof.
  unfold processRequestQueue.
  destruct (_currentRequest this); [apply submits_nothing_refl|].
  destruct (_requestQueue this) as [|head rest] eqn:Hq; [apply submits_nothing_refl|].
  assert (Hsend : submits_nothing this
            (sendTransportRequest head
               (set_currentRequest (Some head) (set_requestQueue rest this)))).
  { split; [unfold sendTransportRequest; simpl; destruct (_transport this); reflexivity|].
    unfold sent_then_queued, sendTransportRequest. simpl. rewrite Hq.
    destruct (_transport this); simpl.
    - rewrite sent_app. simpl. rewrite <- app_assoc. reflexivity.
    - apply sublist_app; [reflexivity|]. now apply sublist_cons. }
  repeat match goal with
         | |- context [if ?b then _ else _] => destruct b
         end; first [exact Hsend|apply submits_nothing_refl].
Qed.

Lemma rejectPendingRequests_submits_nothing error this :
  submits_nothing this (rejectPendingRequests error this).
Proof.
  destruct (rejectPendingRequests_log error this) as (effs & Hlog & Hset).
  split.
  - unfold rejectPendingRequests. rewrite fold_left_does.
    destruct (_currentRequest this); reflexivity.
  - unfold sent_then_queued. rewrite Hlog, sent_app, (sent_settlements _ Hset).
    replace (_requestQueue (rejectPendingRequests error this)) with (@nil RequestQueueItem)
      by reflexivity.
    simpl. rewrite !app_nil_r. now apply sublist_inserts_r.
Qed.

Lemma transportMessage_submits_nothing msg this :
  submits_nothing this (transportMessage msg this).
Proof.
  unfold transportMessage.
  repeat (destruct (decide _); [apply submits_nothing_refl|]).
  destruct (decide _).
  - unfold focusKeeWebTab. destruct (_transport this); [|apply submits_nothing_refl].
    now apply submits_nothing_does.
  - eapply submits_nothing_trans; [|apply processRequestQueue_submits_nothing].
    destruct (_currentRequest this) as [current|]; [|apply submits_nothing_refl].
    apply (submits_nothing_trans _ (does (resolve (Item.promise current) msg)
                                      (clearTimeout (Item.timeout current) this))).
    + apply (submits_nothing_trans _ (clearTimeout (Item.timeout current) this)).
      * now apply submits_nothing_same.
      * now apply submits_nothing_does.
    + now apply submits_nothing_same.
Qed.

Lemma timeout_callback_submits_nothing handle this :
  submits_nothing this (timeout_callback handle this).
Proof.
  unfold timeout_callback.
  destruct (list_find _ (timers this)) as [[index [h promise]]|];
    [|apply submits_nothing_refl].
  eapply submits_nothing_trans; [|now apply submits_nothing_does].
  now apply submits_nothing_same.
Qed.

Lemma emit_connect_finished_submits_nothing e this :
  submits_nothing this (emit_connect_finished_ e this).
Proof.
  split; [unfold emit_connect_finished_; destruct e; rewrite fold_left_does; reflexivity|].
  unfold sent_then_queued. rewrite emit_connect_finished_log.
  replace (_requestQueue (emit_connect_finished_ e this)) with (_requestQueue this)
    by (unfold emit_connect_finished_; destruct e; rewrite fold_left_does; reflexivity).
  rewrite sent_app. apply sublist_app; [|reflexivity].
  replace (sent (emit_connect_finished e :: _)) with (@nil nat);
    [rewrite app_nil_r; reflexivity|].
  unfold sent. simpl. induction (once_connect_finished this) as [|c l IH]; [reflexivity|].
  simpl. destruct e; exact IH.
Qed.

Lemma connect_submits_nothing caller this : submits_nothing this (connect caller this).
Proof.
  unfold connect.
  destruct (decide _); [now apply submits_nothing_does|].
  destruct (decide _); [now apply submits_nothing_same|].
  cbv zeta.
  apply (submits_nothing_trans _ (rejectPendingRequests "Reconnecting" this));
    [apply rejectPendingRequests_submits_nothing|].
  set (r := rejectPendingRequests "Reconnecting" this). clearbody r.
  apply (submits_nothing_trans _ (set_connectionError None r));
    [now apply submits_nothing_same|].
  apply (submits_nothing_trans _ (setState Connecting (set_connectionError None r)));
    [apply setState_submits_nothing|].
  set (c := setState Connecting (set_connectionError None r)). clearbody c.
  eapply submits_nothing_trans; [|now apply submits_nothing_does].
  unfold initTransport.
  set (t := if _useNativeApp c then _ else _). clearbody t. cbv zeta.
  apply (submits_nothing_trans _ (does (new_transport t) c));
    [now apply submits_nothing_does|].
  now apply submits_nothing_same.
Qed.

Lemma connect_succeeded_submits_nothing caller this :
  submits_nothing this (connect_succeeded caller this).
Proof.
  unfold connect_succeeded. cbv zeta.
  apply (submits_nothing_trans _ (setState Connected this));
    [apply setState_submits_nothing|].
  eapply submits_nothing_trans; [|now apply submits_nothing_does].
  apply emit_connect_finished_submits_nothing.
Qed.

Lemma connect_failed_submits_nothing caller message this :
  submits_nothing this (connect_failed caller message this).
Proof.
  unfold connect_failed. cbv zeta.
  apply (submits_nothing_trans _ (set_connectionError (Some message) this));
    [now apply submits_nothing_same|].
  apply (submits_nothing_trans _ (setState Error (set_connectionError (Some message) this)));
    [apply setState_submits_nothing|].
  eapply submits_nothing_trans; [|now apply submits_nothing_does].
  apply emit_connect_finished_submits_nothing.
Qed.

Lemma transport_disconnected_submits_nothing this :
  submits_nothing this (transport_disconnected this).
Proof.
  unfold transport_disconnected. cbv zeta.
  set (error := if decide (_state this = Connecting) then _ else _). clearbody error.
  apply (submits_nothing_trans _ (set_connectionError (Some error) this));
    [now apply submits_nothing_same|].
  apply (submits_nothing_trans _ (setState Error (set_connectionError (Some error) this)));
    [apply setState_submits_nothing|].
  apply rejectPendingRequests_submits_nothing.
Qed.

Lemma request_in_submission_order r this :
  in_submission_order this -> in_submission_order (request_ r this).
Proof.
  intros Ho. unfold request_. cbv zeta.
  apply (submits_nothing_order _ _ (processRequestQueue_submits_nothing _)).
  unfold in_submission_order, sent_then_queued in *. cbn -[seq].
  rewrite map_app, app_assoc, seq_S. now apply sublist_app.
Qed.

Lemma step_in_submission_order this e :
  in_submission_order this -> in_submission_order (step this e).
Proof.
  intros Ho. destruct e; simpl;
    try (now apply request_in_submission_order);
    apply (fun after H => submits_nothing_order this after H Ho).
  - apply connect_submits_nothing.
  - apply connect_succeeded_submits_nothing.
  - apply connect_failed_submits_nothing.
  - apply transportMessage_submits_nothing.
  - apply timeout_callback_submits_nothing.
  - apply transport_disconnected_submits_nothing.
Qed.

(** In every reachable state the promises whose requests have been given to
    the transport, followed by the queued ones, are in the order of
    submission and without repetition: the queue is first in, first out. *)
Lemma dispatch_in_submission_order this :
  reachable this -> in_submission_order this.
Proof.
  intros [events ->]. unfold run.
  assert (Hgen : forall b, in_submission_order b ->
                           in_submission_order (fold_left step events b)).
  { induction events as [|e events IH]; intros b Hb; simpl; [exact Hb|].
    apply IH, step_in_submission_order, Hb. }
  apply Hgen. unfold in_submission_order, sent_then_queued. simpl. reflexivity.
Qed.

End BackendFacts.

(** *** The connection manager on the sample runs *)




(** C3, evaluated on [Scenario.stale_timer], a run of the event loop from
    the initial object. The timer of request 2, which [rejectPendingRequests]
    left running when it rejected the queued request, empties the slot
    held by request 4; request 5 is then given to the transport although
    request 4 has been neither answered, rejected nor timed out: two
    requests have been dispatched and await their response. *)
Theorem C3_stale_timer_two_requests_in_flight :
  let final := run Scenario.stale_timer new_Backend in
  reachable final /\
  _state final = BackendConnectionState.Connected /\
  omap sent_promise (log final) = [0; 1; 3; 4; 5]%nat /\
  awaiting_response (log final) = [4; 5]%nat /\
  (Item.promise <$> _currentRequest final) = Some 5%nat.
Proof.
  split; [exists Scenario.stale_timer; reflexivity|].
  vm_compute. repeat split; reflexivity.
Qed.

(** On the sample platform the nonce of every request that
    [makeEncryptedRequest] builds decodes to the bytes that were drawn, as C1
    asks of the request. *)
Lemma sample_request_nonce_decodes this payload nonce request :
  Forall is_byte nonce ->
  makeEncryptedRequest this payload nonce = Ok request ->
  fromBase64 (EncReq.nonce request) = Some nonce.
Proof.
  intros Hb Hmake. apply makeEncryptedRequest_nonce in Hmake as [-> _].
  now apply fromBase64_toBase64.
Qed.

(** ** The sample platform computes *)

Example sample_round_trip :
  decryptResponsePayload Sample.paired Sample.request0 Sample.good_response
  = Ok (Some (Resp.mk None None None None None None (Some "cafe"))).
Proof. vm_compute. reflexivity. Qed.

Example sample_nonce1 :
  Sample.nonce1 = [0; 0; 1] ++ repeat 0 21.
Proof. vm_compute. reflexivity. Qed.

(** The box of [replayed_response] opens, yet the response is refused. *)
Example sample_wrong_nonce_refused :
  Sample.open Sample.good_box Sample.nonce1 (Sample.key32 5) (Sample.key32 9)
    = Some (Sample.chars "cafe") /\
  decryptResponsePayload Sample.paired Sample.request0
    Sample.replayed_response = Throw (Error "Bad nonce in response").
Proof. vm_compute. split; reflexivity. Qed.

(** Three message-less responses on which [validateNonce] would throw. *)
Example sample_no_message_bad_nonces :
  Forall (fun nonce =>
            validateNonce (EncReq.nonce Sample.request0) nonce
              = Throw (Error "Bad nonce in response") /\
            decryptResponsePayload Sample.paired Sample.request0
              (Sample.response_with None nonce) = Ok None)
    [None; Some "not base64"; Some (Base64.toBase64 Sample.nonce0)].
Proof. repeat constructor; vm_compute; reflexivity. Qed.

(** * Further properties of the code *)

(** ** The nonce successor ([validateNonce], the loop) *)

Lemma ToUint8_succ_differs b : ToUint8 (1 + b) <> b.
Proof. rewrite ToUint8_mod. Z.div_mod_to_equations. lia. Qed.

Lemma ToUint8_byte b : is_byte b -> ToUint8 b = b.
Proof. unfold is_byte. intros Hb. rewrite ToUint8_mod. now apply Z.mod_small. Qed.

Lemma add_carry_zero d : Forall is_byte d -> add_carry 0 d = d.
Proof.
  induction 1 as [|b d Hb _ IH]; cbn [add_carry]; [reflexivity|].
  rewrite Z.add_0_l, (ToUint8_byte b Hb), shiftr8_div.
  unfold is_byte in Hb. rewrite Z.div_small by lia. now rewrite IH.
Qed.

(** X1. The successor of a nonce never equals the nonce, whatever its
    bytes: the first byte always changes. Only the empty array is its own
    successor. *)
Theorem increment_never_fixes_a_nonce :
  (forall b rest, increment (b :: rest) <> b :: rest) /\ increment [] = [].
Proof.
  split; [|reflexivity].
  intros b rest. rewrite increment_add_carry. cbn [add_carry]. intros Heq.
  injection Heq as Hb _. exact (ToUint8_succ_differs b Hb).
Qed.

(** X2. The carry stops at the first byte that is not 0xFF: the run of 0xFF
    bytes before it becomes a run of zeros, that byte grows by one, and the
    bytes behind it are left as they are. *)
Theorem increment_carry_stops (k : nat) (b : Z) (rest : bytes) :
  0 <= b < 255 ->
  Forall is_byte rest ->
  increment (repeat 255 k ++ b :: rest) = repeat 0 k ++ (b + 1) :: rest.
Proof.
  intros Hb Hrest. rewrite increment_add_carry.
  induction k as [|k IH]; cbn [repeat app add_carry].
  - rewrite ToUint8_byte by (unfold is_byte; lia).
    rewrite shiftr8_div, Z.div_small by lia.
    rewrite add_carry_zero by exact Hrest. f_equal. lia.
  - change (Z.shiftr (1 + 255) 8) with 1. change (ToUint8 (1 + 255)) with 0.
    now rewrite IH.
Qed.

Lemma increment_carry_stops_witness :
  increment (repeat 255 2 ++ 7 :: [255; 0]) = repeat 0 2 ++ (7 + 1) :: [255; 0].
Proof.
  apply (increment_carry_stops 2 7 [255; 0]); [lia|].
  repeat constructor; unfold is_byte; lia.
Defined.

Lemma add_carry_injective c a b :
  Forall is_byte a -> Forall is_byte b -> add_carry c a = add_carry c b -> a = b.
Proof.
  intros Ha. revert c b. induction Ha as [|x a Hx _ IH]; intros c b Hb Heq.
  - destruct b; [reflexivity|discriminate].
  - destruct Hb as [|y b Hy Hb]; [discriminate|].
    cbn [add_carry] in Heq. injection Heq as Hhead Htail.
    assert (x = y) as ->.
    { rewrite !ToUint8_mod in Hhead. unfold is_byte in Hx, Hy.
      Z.div_mod_to_equations. lia. }
    f_equal. exact (IH _ _ Hb Htail).
Qed.

(** X3. Two different nonces never have the same successor. *)
Theorem increment_injective (a b : bytes) :
  Forall is_byte a -> Forall is_byte b -> increment a = increment b -> a = b.
Proof. rewrite !increment_add_carry. apply add_carry_injective. Qed.

Lemma increment_injective_witness : [255; 3] = [255; 3].
Proof.
  apply (increment_injective [255; 3] [255; 3]);
    repeat constructor; unfold is_byte; lia.
Defined.

(** ** The protocol object *)

Lemma truthy_Some s m : truthy s = Some m <-> s = Some m /\ m <> "".
Proof.
  destruct s as [[|c s]|]; simpl; split;
    try (intros [= <-]); try (intros [[= <-] Hne]); try discriminate;
    try contradiction; try (split; [reflexivity|discriminate]); reflexivity.
Qed.

Lemma truthy_None s : truthy s = None <-> s = None \/ s = Some "".
Proof.
  destruct s as [[|c s]|]; simpl; split; intros Hs;
    try discriminate; auto; destruct Hs; discriminate.
Qed.

Section ProtocolFurther.
Context `{Platform}.

(** X4. [validateNonce] never accepts a response without a nonce, and for
    one request nonce it accepts at most one response nonce. *)
Theorem validateNonce_accepts_at_most_one (nonce : string) :
  validateNonce nonce None <> Ok tt /\
  (forall r1 r2,
      validateNonce nonce r1 = Ok tt -> validateNonce nonce r2 = Ok tt -> r1 = r2).
Proof.
  unfold validateNonce. destruct (fromBase64 nonce) as [nonceData|].
  - split.
    + rewrite decide_False by discriminate. discriminate.
    + intros r1 r2.
      destruct (decide (_ = r1)) as [<-|]; [|discriminate].
      destruct (decide (_ = r2)) as [<-|]; [reflexivity|discriminate].
  - split; [discriminate|]. intros r1 r2 Hr. discriminate.
Qed.

(** X5. A response that echoes the nonce of the request is refused: the
    request's nonce is never its own successor. (The nonce is not empty and
    its successor survives the base64 round trip.) *)
Theorem validateNonce_rejects_echo (nonce : string) (b : Z) (rest : bytes) :
  fromBase64 nonce = Some (b :: rest) ->
  fromBase64 (toBase64 (increment (b :: rest))) = Some (increment (b :: rest)) ->
  validateNonce nonce (Some nonce) = Throw (Error "Bad nonce in response").
Proof.
  intros Hd Hround. rewrite (validateNonce_spec _ _ _ Hd).
  destruct (decide _) as [Heq|]; [|reflexivity].
  exfalso. injection Heq as Heq. rewrite Heq, Hd in Hround.
  injection Hround as Hfix. symmetry in Hfix. revert Hfix.
  rewrite increment_add_carry. cbn [add_carry]. intros Hfix.
  injection Hfix as Hb _. exact (ToUint8_succ_differs b Hb).
Qed.

(** X6. [decryptResponsePayload] returns a payload exactly when the
    response has a non-empty message, its nonce is the successor of the
    request's, both fields decode, the box opens under the decoded nonce
    and the keys, the text parses to an object, and that object reports no
    error; the payload returned is the parsed object itself. *)
Theorem decryptResponsePayload_succeeds_iff
    (this : ProtocolImpl) (request : KeeWebConnectEncryptedRequest)
    (response payload : KeeWebConnectResponse) :
  decryptResponsePayload this request response = Ok (Some payload) <->
  exists message nonceData box nonce data,
    Resp.message response = Some message /\ message <> "" /\
    fromBase64 (EncReq.nonce request) = Some nonceData /\
    Resp.nonce response = Some (toBase64 (increment nonceData)) /\
    toBase64 (increment nonceData) <> "" /\
    fromBase64 message = Some box /\
    fromBase64 (toBase64 (increment nonceData)) = Some nonce /\
    tweetnaclBox_open box nonce (_keewebPublicKey this) (secretKey (_ownKeys this))
      = Ok (Some data) /\
    JSON_parse (utf8_decode data) = JObject payload /\
    truthy (Resp.error payload) = None.
Proof.
  unfold decryptResponsePayload. split.
  - destruct (truthy (Resp.message response)) as [m|] eqn:Hm; [|discriminate].
    apply truthy_Some in Hm as [Hm Hne].
    unfold validateNonce.
    destruct (fromBase64 (EncReq.nonce request)) as [nonceData|]; [|discriminate].
    destruct (decide _) as [Hnonce|]; [|discriminate]. cbn [bind].
    unfold fieldFromBase64. rewrite Hm, <- Hnonce.
    destruct (truthy (Some m)) as [m'|] eqn:Hm'; [|discriminate].
    apply truthy_Some in Hm' as [[= <-] _].
    destruct (fromBase64 m) as [box|] eqn:Hbox; [|discriminate]. cbn [bind].
    destruct (truthy (Some (toBase64 (increment nonceData)))) as [n|] eqn:Hn;
      [|discriminate].
    apply truthy_Some in Hn as [[= <-] Hnne].
    destruct (fromBase64 (toBase64 (increment nonceData))) as [nonce|] eqn:Hdec;
      [|discriminate]. cbn [bind].
    destruct (tweetnaclBox_open box nonce _ _) as [[data|]|] eqn:Hopen;
      try discriminate. cbn [bind TextDecoder_decode].
    destruct (JSON_parse (utf8_decode data)) as [| |parsed] eqn:Hparse; try discriminate.
    unfold checkResponseError.
    destruct (truthy (Resp.error parsed)) eqn:Herr; [discriminate|]. cbn [bind].
    intros [= <-]. exists m, nonceData, box, nonce, data. repeat split; auto.
  - intros (m & nonceData & box & nonce & data &
            Hm & Hne & Hd & Hnonce & Hnne & Hbox & Hdec & Hopen & Hparse & Herr).
    assert (Htm : truthy (Some m) = Some m) by (apply truthy_Some; auto).
    assert (Htn : truthy (Some (toBase64 (increment nonceData)))
                  = Some (toBase64 (increment nonceData)))
      by (apply truthy_Some; auto).
    rewrite Hm, Htm. unfold validateNonce. rewrite Hd, Hnonce.
    rewrite decide_True by reflexivity. cbn [bind].
    unfold fieldFromBase64. rewrite Htm, Hbox. cbn [bind]. rewrite Htn, Hdec. cbn [bind].
    rewrite Hopen. cbn [bind TextDecoder_decode]. rewrite Hparse.
    unfold checkResponseError. rewrite Herr. reflexivity.
Qed.

Lemma getDatabaseHash_awaits this nonce request :
  makeEncryptedRequest this (Req.mk "get-databasehash" None None None None) nonce
    = Ok request ->
  getDatabaseHash this nonce
  = Await (EncReq.to_request request) (fun response =>
      Return (
        let* response := bind response checkResponseError in
        let* payload := decryptResponsePayload this request response in
        match payload with
        | None => Throw PropertyOfNullish
        | Some payload => Ok (Resp.hash payload)
        end)).
Proof. intros Hmake. unfold getDatabaseHash. rewrite Hmake. reflexivity. Qed.

(** X7. [getDatabaseHash] fails on an answer without message: the answer
    passes [checkResponseError], [decryptResponsePayload] returns
    [undefined], and reading [hash] of it throws. *)
Theorem getDatabaseHash_rejects_answer_without_message
    (this : ProtocolImpl) (nonce : bytes) (request : KeeWebConnectEncryptedRequest) :
  makeEncryptedRequest this (Req.mk "get-databasehash" None None None None) nonce
    = Ok request ->
  exists k,
    getDatabaseHash this nonce = Await (EncReq.to_request request) k /\
    forall response,
      truthy (Resp.error response) = None ->
      truthy (Resp.message response) = None ->
      k (Ok response) = Return (Throw PropertyOfNullish).
Proof.
  intros Hmake. eexists. split; [exact (getDatabaseHash_awaits _ _ _ Hmake)|].
  intros response Herr Hmsg. cbn [bind]. unfold checkResponseError. rewrite Herr.
  cbn [bind]. unfold decryptResponsePayload. rewrite Hmsg. reflexivity.
Qed.

(** X8. [getDatabaseHash] passes on a rejection of the transport as it is,
    and an answer that carries an [error] is turned into that error before
    its nonce or message is looked at. *)
Theorem getDatabaseHash_reports_errors_first
    (this : ProtocolImpl) (nonce : bytes) (request : KeeWebConnectEncryptedRequest) :
  makeEncryptedRequest this (Req.mk "get-databasehash" None None None None) nonce
    = Ok request ->
  exists k,
    getDatabaseHash this nonce = Await (EncReq.to_request request) k /\
    (forall e, k (Throw e) = Return (Throw e)) /\
    (forall response err,
        truthy (Resp.error response) = Some err ->
        k (Ok response)
        = Return (Throw (Error (getMessage "errorAppReturnedError" +:+ ": " +:+
                                (match truthy (Resp.errorCode response) with
                                 | Some code => "[code=" +:+ code +:+ "] "
                                 | None => ""
                                 end) +:+ err)))).
Proof.
  intros Hmake. eexists. split; [exact (getDatabaseHash_awaits _ _ _ Hmake)|].
  split; [reflexivity|].
  intros response err Herr. cbn [bind]. unfold checkResponseError. rewrite Herr.
  reflexivity.
Qed.

(** X9. The handshake makes encrypted requests possible. [changePublicKeys]
    sends one unencrypted request with the own public key; when the answer
    reports no error and its [publicKey] decodes, the key is stored, and
    with 32-byte keys and a 24-byte nonce [getDatabaseHash] on the new
    object then hands one encrypted request to the transport, under the
    same client id. *)
Theorem handshake_enables_encrypted_requests
    (this : ProtocolImpl) (nonce nonce' key : bytes) (response : KeeWebConnectResponse)
    (text : string) :
  truthy (Resp.error response) = None ->
  Resp.publicKey response = Some text ->
  fromBase64 text = Some key ->
  length key = 32%nat ->
  length (secretKey (_ownKeys this)) = 32%nat ->
  length nonce' = 24%nat ->
  exists k this',
    changePublicKeys this nonce
    = Await (Req.mk "change-public-keys" None (Some (toBase64 nonce))
               (Some (_clientId this)) (Some (toBase64 (publicKey (_ownKeys this))))) k /\
    k (Ok response) = Return (Ok this') /\
    _keewebPublicKey this' = Some key /\
    exists k',
      getDatabaseHash this' nonce'
      = Await (Req.mk "get-databasehash"
                 (Some (toBase64
                          (crypto_box
                             (encode_json (Req.mk "get-databasehash" None None None None))
                             nonce' key (secretKey (_ownKeys this)))))
                 (Some (toBase64 nonce')) (Some (_clientId this)) None) k'.
Proof.
  intros Herr Hpk Hdec Hkey Hsk Hnonce.
  eexists. eexists. split; [reflexivity|].
  cbn [bind]. unfold checkResponseError. rewrite Herr. cbn [bind].
  rewrite Hpk. cbn [from_option]. rewrite Hdec.
  split; [reflexivity|]. split; [reflexivity|].
  unfold getDatabaseHash, makeEncryptedRequest, tweetnaclBox, checkBoxArguments.
  cbn [_keewebPublicKey _ownKeys _clientId].
  rewrite Hkey, Hsk, Hnonce. cbn [Nat.eqb negb bind].
  eexists. reflexivity.
Qed.

End ProtocolFurther.

Lemma validateNonce_rejects_echo_witness :
  validateNonce (EncReq.nonce Sample.request0) (Some (EncReq.nonce Sample.request0))
  = Throw (Error "Bad nonce in response").
Proof.
  apply (validateNonce_rejects_echo (EncReq.nonce Sample.request0) 255
           (255 :: repeat 0 22)); vm_compute; reflexivity.
Defined.

Lemma getDatabaseHash_rejects_answer_without_message_witness :
  exists k,
    getDatabaseHash Sample.paired (repeat 1 24)
    = Await (EncReq.to_request
               (EncReq.mk "get-databasehash"
                  (toBase64 (Sample.seal (Sample.chars "get-databasehash") (repeat 1 24)
                               (Sample.key32 5) (Sample.key32 9)))
                  (toBase64 (repeat 1 24)) (_clientId Sample.paired))) k /\
    forall response,
      truthy (Resp.error response) = None ->
      truthy (Resp.message response) = None ->
      k (Ok response) = Return (Throw PropertyOfNullish).
Proof.
  apply (getDatabaseHash_rejects_answer_without_message Sample.paired (repeat 1 24)).
  reflexivity.
Defined.

(** ** The connection manager: what every run keeps *)

Lemma settled_app p l1 l2 :
  existsb (is_settled p) l1 = true -> existsb (is_settled p) (l1 ++ l2) = true.
Proof. intros Hs. rewrite existsb_app, Hs. reflexivity. Qed.

Lemma sublist_map {A B} (f : A -> B) (l1 l2 : list A) :
  l1 `sublist_of` l2 -> map f l1 `sublist_of` map f l2.
Proof. induction 1; simpl; constructor; assumption. Qed.

Lemma quiet_intro before after :
  next_id after = next_id before ->
  pending after `sublist_of` pending before ->
  (exists effs, log after = log before ++ effs) ->
  (forall t, t ∈ timers after -> t ∈ timers before) ->
  (forall t, t ∈ timers before -> t ∉ timers after ->
             existsb (is_settled (snd t)) (log after) = true) ->
  quiet before after.
Proof. unfold quiet. auto. Qed.

Lemma quiet_refl this : quiet this this.
Proof.
  apply quiet_intro; auto;
    try (exists []; now rewrite app_nil_r); try (intros t Hin Hout; contradiction).
Qed.

Lemma quiet_trans a b c : quiet a b -> quiet b c -> quiet a c.
Proof.
  intros (Hn1 & Hp1 & [e1 Hl1] & Ht1 & Hs1) (Hn2 & Hp2 & [e2 Hl2] & Ht2 & Hs2).
  apply quiet_intro.
  - congruence.
  - now transitivity (pending b).
  - exists (e1 ++ e2). rewrite Hl2, Hl1. now rewrite app_assoc.
  - auto.
  - intros t Ha Hc. destruct (decide (t ∈ timers b)) as [Hb|Hb].
    + now apply Hs2.
    + rewrite Hl2. apply settled_app. now apply Hs1.
Qed.

Lemma quiet_same a b :
  next_id b = next_id a -> pending b = pending a -> log b = log a ->
  timers b = timers a -> quiet a b.
Proof.
  intros Hn Hp Hl Ht. apply quiet_intro; rewrite ?Hn, ?Hp, ?Hl, ?Ht; auto;
    try (exists []; now rewrite app_nil_r); try (intros t Hin Hout; contradiction).
Qed.

Lemma quiet_does e this : quiet this (does e this).
Proof.
  apply quiet_intro; auto;
    try (exists [e]; reflexivity); try (intros t Hin Hout; contradiction).
Qed.

Lemma quiet_well_kept a b : quiet a b -> well_kept a -> well_kept b.
Proof.
  intros (Hn & Hp & [effs Hl] & Ht & Hs) (Htimers & Hitems & Horder & Hguard).
  repeat split.
  - rewrite Forall_forall in *. auto.
  - rewrite Forall_forall in *. intros item Hin. apply Hitems.
    eapply sublist_subseteq; eauto.
  - rewrite Hn. transitivity (map Item.promise (pending a)); [|exact Horder].
    now apply sublist_map.
  - intros p Hlt. rewrite Hn in Hlt. destruct (Hguard p Hlt) as [Htimer|Hset].
    + destruct (decide ((p, p) ∈ timers b)) as [Hb|Hb]; [now left|].
      right. exact (Hs (p, p) Htimer Hb).
    + right. rewrite Hl. now apply settled_app.
Qed.

Lemma quiet_setState state this : quiet this (setState state this).
Proof.
  unfold setState. destruct (decide _); [|apply quiet_refl].
  apply (quiet_trans _ (set_state state this)); [now apply quiet_same|apply quiet_does].
Qed.

Lemma quiet_processRequestQueue this : quiet this (processRequestQueue this).
Proof.
  unfold processRequestQueue.
  destruct (_currentRequest this) eqn:Hcur; [apply quiet_refl|].
  destruct (_requestQueue this) as [|head rest] eqn:Hq; [apply quiet_refl|].
  assert (Hsend : quiet this
            (sendTransportRequest head
               (set_currentRequest (Some head) (set_requestQueue rest this)))).
  { apply (quiet_trans _ (set_currentRequest (Some head) (set_requestQueue rest this))).
    - apply quiet_same; try reflexivity. unfold pending. simpl. now rewrite Hcur, Hq.
    - unfold sendTransportRequest. simpl. destruct (_transport this);
        [apply quiet_does|apply quiet_refl]. }
  repeat match goal with
         | |- context [if ?b then _ else _] => destruct b
         end; first [exact Hsend|apply quiet_refl].
Qed.

(** The in-flight request is settled by [e], its timer cleared, the slot
    emptied. *)
Lemma quiet_settle_current this current e :
  well_kept this ->
  _currentRequest this = Some current ->
  is_settled (Item.promise current) e = true ->
  quiet this
    (set_currentRequest None (does e (clearTimeout (Item.timeout current) this))).
Proof.
  intros (Htimers & Hitems & _ & _) Hcur He.
  assert (Hitem : Item.timeout current = Item.promise current).
  { rewrite Forall_forall in Hitems. apply Hitems. unfold pending. rewrite Hcur.
    simpl. left. }
  apply quiet_intro.
  - reflexivity.
  - unfold pending. simpl. rewrite Hcur. simpl. now apply sublist_cons.
  - exists [e]. reflexivity.
  - simpl. intros t Hin. apply list_elem_of_filter in Hin. tauto.
  - simpl. intros t Hin Hout. rewrite existsb_app. simpl.
    assert (Ht : fst t = Item.timeout current).
    { destruct (decide (fst t = Item.timeout current)) as [Heq|Hne]; [exact Heq|].
      exfalso. apply Hout, list_elem_of_filter. auto. }
    rewrite Forall_forall in Htimers. rewrite <- (Htimers t Hin), Ht, Hitem, He.
    now rewrite orb_true_r.
Qed.

Section BackendKeeps.
Context `{Platform}.
Import BackendConnectionState.

Lemma quiet_rejectPendingRequests error this :
  well_kept this -> quiet this (rejectPendingRequests error this).
Proof.
  intros Hk. unfold rejectPendingRequests.
  set (cleared := match _currentRequest this with Some _ => _ | None => this end).
  assert (Hcleared : quiet this cleared).
  { unfold cleared. destruct (_currentRequest this) as [current|] eqn:Hcur;
      [|apply quiet_refl].
    apply quiet_settle_current; auto. simpl. now apply bool_decide_eq_true. }
  apply (quiet_trans _ cleared); [exact Hcleared|]. clearbody cleared.
  cbv zeta. rewrite fold_left_does.
  apply quiet_intro.
  - reflexivity.
  - unfold pending. simpl. apply sublist_app; [reflexivity|apply sublist_nil_l].
  - simpl. eexists. reflexivity.
  - auto.
  - intros t Hin Hout. contradiction.
Qed.

Lemma quiet_transportMessage msg this :
  well_kept this -> quiet this (transportMessage msg this).
Proof.
  intros Hk. unfold transportMessage.
  repeat (destruct (decide _); [apply quiet_refl|]).
  destruct (decide _).
  - unfold focusKeeWebTab. destruct (_transport this); [apply quiet_does|apply quiet_refl].
  - eapply quiet_trans; [|apply quiet_processRequestQueue].
    destruct (_currentRequest this) as [current|] eqn:Hcur; [|apply quiet_refl].
    apply quiet_settle_current; auto. simpl. now apply bool_decide_eq_true.
Qed.

Lemma quiet_timeout_callback handle this :
  well_kept this -> quiet this (timeout_callback handle this).
Proof.
  intros (Htimers & _). unfold timeout_callback.
  destruct (list_find _ (timers this)) as [[index [h promise]]|] eqn:Hfind;
    [|apply quiet_refl].
  apply list_find_Some in Hfind as (Hlook & Hh & _). simpl in Hh. subst h.
  assert (Hin : (handle, promise) ∈ timers this) by (eapply list_elem_of_lookup_2; eauto).
  rewrite Forall_forall in Htimers. pose proof (Htimers _ Hin) as Hp. simpl in Hp. subst promise.
  apply quiet_intro.
  - reflexivity.
  - unfold pending. simpl. destruct (_currentRequest this); simpl;
      [now apply sublist_cons|reflexivity].
  - eexists. reflexivity.
  - simpl. intros t Ht. apply list_elem_of_filter in Ht. tauto.
  - simpl. intros t Ht Hout. rewrite existsb_app. simpl.
    assert (Hfst : fst t = handle).
    { destruct (decide (fst t = handle)) as [Heq|Hne]; [exact Heq|].
      exfalso. apply Hout, list_elem_of_filter. auto. }
    rewrite <- (Htimers t Ht), Hfst. rewrite bool_decide_true by reflexivity.
    now rewrite orb_true_r.
Qed.

Lemma quiet_emit_connect_finished e this : quiet this (emit_connect_finished_ e this).
Proof.
  unfold emit_connect_finished_. destruct e as [message|]; rewrite fold_left_does;
    (apply quiet_intro; auto;
     try (simpl; rewrite <- app_assoc; eexists; reflexivity);
     try (intros t Hin Hout; contradiction)).
Qed.

Lemma quiet_connect caller this : well_kept this -> quiet this (connect caller this).
Proof.
  intros Hk. unfold connect.
  destruct (decide _); [apply quiet_does|].
  destruct (decide _); [now apply quiet_same|].
  cbv zeta.
  apply (quiet_trans _ (rejectPendingRequests "Reconnecting" this));
    [now apply quiet_rejectPendingRequests|].
  set (r := rejectPendingRequests "Reconnecting" this). clearbody r.
  apply (quiet_trans _ (set_connectionError None r)); [now apply quiet_same|].
  apply (quiet_trans _ (setState Connecting (set_connectionError None r)));
    [apply quiet_setState|].
  set (c := setState Connecting (set_connectionError None r)). clearbody c.
  eapply quiet_trans; [|apply quiet_does].
  unfold initTransport.
  set (t := if _useNativeApp c then _ else _). clearbody t. cbv zeta.
  apply (quiet_trans _ (does (new_transport t) c)); [apply quiet_does|].
  now apply quiet_same.
Qed.

Lemma quiet_connect_succeeded caller this : quiet this (connect_succeeded caller this).
Proof.
  unfold connect_succeeded. cbv zeta.
  apply (quiet_trans _ (setState Connected this)); [apply quiet_setState|].
  eapply quiet_trans; [|apply quiet_does]. apply quiet_emit_connect_finished.
Qed.

Lemma quiet_connect_failed caller message this :
  quiet this (connect_failed caller message this).
Proof.
  unfold connect_failed. cbv zeta.
  apply (quiet_trans _ (set_connectionError (Some message) this));
    [now apply quiet_same|].
  apply (quiet_trans _ (setState Error (set_connectionError (Some message) this)));
    [apply quiet_setState|].
  eapply quiet_trans; [|apply quiet_does]. apply quiet_emit_connect_finished.
Qed.

Lemma quiet_resetStateByConfig this : quiet this (resetStateByConfig this).
Proof.
  unfold resetStateByConfig. cbv zeta.
  apply (quiet_trans _ (set_connectionError None this)); [now apply quiet_same|].
  apply quiet_setState.
Qed.

Lemma quiet_storageChanged_finish this :
  well_kept this -> quiet this (storageChanged_finish this).
Proof.
  intros Hk. unfold storageChanged_finish. cbv zeta.
  apply (quiet_trans _ (resetStateByConfig this)); [apply quiet_resetStateByConfig|].
  apply quiet_rejectPendingRequests.
  exact (quiet_well_kept _ _ (quiet_resetStateByConfig this) Hk).
Qed.

Lemma quiet_transport_disconnected this :
  well_kept this -> quiet this (transport_disconnected this).
Proof.
  intros Hk. unfold transport_disconnected. cbv zeta.
  set (error := if decide (_state this = Connecting) then _ else _). clearbody error.
  assert (H1 : quiet this (setState Error (set_connectionError (Some error) this))).
  { apply (quiet_trans _ (set_connectionError (Some error) this));
      [now apply quiet_same|apply quiet_setState]. }
  apply (quiet_trans _ _ _ H1).
  apply quiet_rejectPendingRequests. exact (quiet_well_kept _ _ H1 Hk).
Qed.

Lemma well_kept_request r this : well_kept this -> well_kept (request_ r this).
Proof.
  intros (Htimers & Hitems & Horder & Hguard). unfold request_. cbv zeta.
  apply (quiet_well_kept _ _ (quiet_processRequestQueue _)).
  repeat split.
  - cbn. apply Forall_app. split; [exact Htimers|]. repeat constructor.
  - unfold pending in *. cbn. rewrite app_assoc. apply Forall_app.
    split; [exact Hitems|]. repeat constructor.
  - unfold pending in *. cbn -[seq]. rewrite app_assoc, map_app, seq_S.
    now apply sublist_app.
  - cbn. intros p Hlt. destruct (decide (p = next_id this)) as [->|Hne].
    + left. apply elem_of_app. right. left.
    + destruct (Hguard p ltac:(lia)) as [Ht|Hs]; [left|right; exact Hs].
      apply elem_of_app. now left.
Qed.

Lemma well_kept_step e this : well_kept this -> well_kept (step this e).
Proof.
  intros Hk. destruct e; simpl;
    try (now apply well_kept_request);
    apply (fun after Hq => quiet_well_kept this after Hq Hk).
  - now apply quiet_connect.
  - apply quiet_connect_succeeded.
  - apply quiet_connect_failed.
  - now apply quiet_transportMessage.
  - now apply quiet_timeout_callback.
  - now apply quiet_transport_disconnected.
Qed.

Lemma well_kept_lifecycle_step e this :
  well_kept this -> well_kept (lifecycle_step this e).
Proof.
  intros Hk. destruct e as [e|useNativeApp url|changes|]; simpl.
  - now apply well_kept_step.
  - refine (quiet_well_kept this _ _ Hk). unfold init_loaded. cbv zeta.
    eapply quiet_trans; [|apply quiet_resetStateByConfig]. now apply quiet_same.
  - refine (quiet_well_kept this _ _ Hk). unfold storageChanged, storageChanged_config.
    destruct (changed_useNativeApp changes) as [v|].
    + set (c := set_useNativeApp _ this).
      assert (Hc : quiet this c) by now apply quiet_same.
      destruct (_transport c); simpl; [exact Hc|].
      apply (quiet_trans _ _ _ Hc), quiet_storageChanged_finish.
      exact (quiet_well_kept _ _ Hc Hk).
    + destruct (changed_keeWebUrl changes) as [v|]; [|apply quiet_refl].
      set (c := set_keeWebUrl _ this).
      assert (Hc : quiet this c) by now apply quiet_same.
      destruct (_transport c); simpl; [exact Hc|].
      apply (quiet_trans _ _ _ Hc), quiet_storageChanged_finish.
      exact (quiet_well_kept _ _ Hc Hk).
  - refine (quiet_well_kept this _ _ Hk). unfold storageChanged_resumed. cbv zeta.
    set (c := set_transport None (_protocol this) this).
    assert (Hc : quiet this c) by now apply quiet_same.
    apply (quiet_trans _ _ _ Hc), quiet_storageChanged_finish.
    exact (quiet_well_kept _ _ Hc Hk).
Qed.

Lemma lifecycle_reachable_well_kept this : lifecycle_reachable this -> well_kept this.
Proof.
  intros [events ->].
  assert (Hgen : forall b, well_kept b -> well_kept (fold_left lifecycle_step events b)).
  { induction events as [|e events IH]; intros b Hb; simpl; [exact Hb|].
    apply IH, well_kept_lifecycle_step, Hb. }
  apply Hgen. split; [constructor|]. split; [constructor|].
  split; [apply sublist_nil_l|]. intros p Hp. simpl in Hp. lia.
Qed.

(** X10. No request can hang. In every state the event loop can reach,
    configuration changes included, each promise that [request] has handed
    out is either settled already or still has its timer running, which
    will reject it. *)
Theorem every_request_is_settled_or_timed (this : Backend) (promise : nat) :
  lifecycle_reachable this ->
  (promise < next_id this)%nat ->
  (promise, promise) ∈ timers this \/
  existsb (is_settled promise) (log this) = true.
Proof.
  intros Hr Hp. apply lifecycle_reachable_well_kept in Hr as (_ & _ & _ & Hguard).
  exact (Hguard promise Hp).
Qed.

(** X11. In every reachable state the requests held (the one in the slot and
    the queued ones) are pairwise different and in the order of
    submission: no request is queued twice, and none is in the slot and in
    the queue at once. *)
Theorem held_requests_are_distinct_and_ordered (this : Backend) :
  lifecycle_reachable this ->
  NoDup (map Item.promise (pending this)) /\
  map Item.promise (pending this) `sublist_of` seq 0 (next_id this).
Proof.
  intros Hr. apply lifecycle_reachable_well_kept in Hr as (_ & _ & Horder & _).
  split; [|exact Horder]. exact (sublist_NoDup _ _ (NoDup_seq _ _) Horder).
Qed.

End BackendKeeps.

(** ** The connection manager: single operations *)

Lemma processRequestQueue_timers this :
  timers (processRequestQueue this) = timers this.
Proof.
  unfold processRequestQueue, sendTransportRequest.
  destruct (_currentRequest this); [reflexivity|].
  destruct (_requestQueue this) as [|head rest]; [reflexivity|]. simpl.
  repeat match goal with
         | |- context [if ?b then _ else _] => destruct b
         end; destruct (_transport this); reflexivity.
Qed.

Lemma list_find_filter_out (handle : nat) (l : list (nat * nat)) :
  list_find (fun t => fst t = handle) (filter (fun t => fst t ≠ handle) l) = None.
Proof.
  apply list_find_None, Forall_forall. intros t Hin.
  apply list_elem_of_filter in Hin. tauto.
Qed.

(** X12. [rejectPendingRequests] rejects the request in the slot and then
    every queued request, each once and with the given message, and leaves
    slot and queue empty. It clears the timer of the request in the slot
    only: the timers of the queued requests keep running. *)
Theorem rejectPendingRequests_rejects_all (error : string) (this : Backend) :
  let after := rejectPendingRequests error this in
  log after
    = log this ++ map (fun item => reject (Item.promise item) error) (pending this) /\
  _currentRequest after = None /\
  _requestQueue after = [] /\
  _state after = _state this /\
  timers after
    = match _currentRequest this with
      | Some current => filter (fun t => fst t ≠ Item.timeout current) (timers this)
      | None => timers this
      end.
Proof.
  unfold rejectPendingRequests, pending. cbv zeta. rewrite fold_left_does.
  destruct (_currentRequest this) as [current|] eqn:Hcur; simpl.
  - rewrite <- app_assoc. repeat split.
  - repeat split; auto.
Qed.

Section BackendOperations.
Context `{Platform}.
Import BackendConnectionState.

(** X13. When the transport reports a disconnect, the state becomes
    [Error], the message (one for a disconnect during the handshake, by
    transport kind, another afterwards) is stored, and the request in the
    slot and all queued requests are rejected with that same message. *)
Theorem disconnect_rejects_everything (this : Backend) :
  let after := transport_disconnected this in
  let error :=
    getMessage (if decide (_state this = Connecting)
                then (if _useNativeApp this then "errorConnectionErrorApp"
                      else "errorConnectionErrorWeb")
                else "errorKeeWebDisconnected") in
  _state after = Error /\
  _connectionError after = Some error /\
  pending after = [] /\
  log after
    = log this ++ (if decide (_state this = Error) then [] else [emit_state_changed])
        ++ map (fun item => reject (Item.promise item) error) (pending this).
Proof.
  cbv zeta. unfold transport_disconnected.
  set (error := if decide (_state this = Connecting) then _ else _).
  assert (Herror : error = getMessage (if decide (_state this = Connecting)
                                       then (if _useNativeApp this
                                             then "errorConnectionErrorApp"
                                             else "errorConnectionErrorWeb")
                                       else "errorKeeWebDisconnected")).
  { unfold error. destruct (decide _); [destruct (_useNativeApp this)|]; reflexivity. }
  rewrite <- Herror. clearbody error. cbv zeta.
  set (s := setState Error (set_connectionError (Some error) this)).
  destruct (rejectPendingRequests_rejects_all error s) as (Hlog & Hcur & Hq & Hst & _).
  assert (Hs : _state s = Error /\ _connectionError s = Some error /\
               pending s = pending this /\
               log s = log this ++ (if decide (_state this = Error) then []
                                    else [emit_state_changed])).
  { unfold s. rewrite setState_log. unfold setState. simpl.
    destruct (decide (_state this ≠ Error)) as [Hne|Heq]; repeat split.
    simpl. destruct (decide (_state this = Error)); tauto. }
  destruct Hs as (Hs1 & Hs2 & Hs3 & Hs4).
  split; [now rewrite Hst|]. split.
  { unfold rejectPendingRequests. cbv zeta. rewrite fold_left_does.
    destruct (_currentRequest s); exact Hs2. }
  split; [unfold pending; now rewrite Hcur, Hq|].
  rewrite Hlog, Hs3, Hs4, <- app_assoc. reflexivity.
Qed.

(** X14. Draining twice is draining once: after [processRequestQueue] a
    second call changes nothing and sends nothing. *)
Theorem processRequestQueue_idempotent (this : Backend) :
  processRequestQueue (processRequestQueue this) = processRequestQueue this.
Proof.
  assert (Hocc : forall b, _currentRequest b <> None -> processRequestQueue b = b).
  { intros b Hb. unfold processRequestQueue. destruct (_currentRequest b); congruence. }
  unfold processRequestQueue at 2 3.
  destruct (_currentRequest this) eqn:Hcur; [apply Hocc; congruence|].
  destruct (_requestQueue this) as [|head rest] eqn:Hq.
  { unfold processRequestQueue. now rewrite Hcur, Hq. }
  assert (Hsent : processRequestQueue
                    (sendTransportRequest head
                       (set_currentRequest (Some head) (set_requestQueue rest this)))
                  = sendTransportRequest head
                      (set_currentRequest (Some head) (set_requestQueue rest this))).
  { apply Hocc. unfold sendTransportRequest. simpl.
    destruct (_transport this); discriminate. }
  assert (Hstay : processRequestQueue this = this -> processRequestQueue this = this)
    by auto.
  destruct (decide (_state this = Connecting)) as [Hc|Hc].
  - destruct (bool_decide _) eqn:Ha; simpl; [exact Hsent|].
    unfold processRequestQueue. rewrite Hcur, Hq.
    rewrite decide_True by exact Hc. now rewrite Ha.
  - destruct (decide (_state this ≠ Connected)) as [Hn|Hn]; [|exact Hsent].
    unfold processRequestQueue. rewrite Hcur, Hq.
    rewrite decide_False by exact Hc. now rewrite decide_True by exact Hn.
Qed.

(** X15. The end of a successful [connect] does not drain the queue: it
    leaves slot, queue and timers as they are and gives nothing to the
    transport, so a request that was queued during the handshake is still
    waiting when the state is [Connected]. *)
Theorem connect_succeeded_sends_nothing (caller : nat) (this : Backend) :
  let after := connect_succeeded caller this in
  _state after = Connected /\
  _requestQueue after = _requestQueue this /\
  _currentRequest after = _currentRequest this /\
  timers after = timers this /\
  sent (log after) = sent (log this).
Proof.
  cbv zeta. unfold connect_succeeded, emit_connect_finished_. cbv zeta.
  rewrite fold_left_does. cbn -[setState].
  unfold setState. destruct (decide (_state this ≠ Connected)) as [Hne|Heq]; simpl.
  - repeat split. rewrite !sent_app. simpl.
    replace (sent (map connect_resolved _)) with (@nil nat).
    + now rewrite !app_nil_r.
    + induction (once_connect_finished this); [reflexivity|assumption].
  - repeat split.
    + destruct (decide (_state this = Connected)); tauto.
    + rewrite !sent_app. simpl.
      replace (sent (map connect_resolved _)) with (@nil nat).
      * now rewrite !app_nil_r.
      * induction (once_connect_finished this); [reflexivity|assumption].
Qed.

(** X16. A request whose timer fires while it waits in the queue stays in
    the queue. With the state [Connected] and a transport, the next drain
    gives it to the transport although its promise is already rejected,
    whatever occupied the slot before the timer fired. *)
Theorem timed_out_queued_request_is_still_sent
    (this : Backend) (head : RequestQueueItem) (rest : list RequestQueueItem)
    (index : nat) (transport : Transport) :
  _requestQueue this = head :: rest ->
  list_find (fun t => fst t = Item.timeout head) (timers this)
    = Some (index, (Item.timeout head, Item.promise head)) ->
  _state this = Connected ->
  _transport this = Some transport ->
  let after := processRequestQueue (timeout_callback (Item.timeout head) this) in
  log after
    = log this ++ [reject (Item.promise head) (getMessage "errorRequestTimeout");
                   transport_request (Item.promise head) (Item.request head)] /\
  _currentRequest after = Some head /\
  _requestQueue after = rest.
Proof.
  intros Hq Hfind Hs Ht. cbv zeta. unfold timeout_callback. rewrite Hfind. cbv zeta.
  unfold processRequestQueue, sendTransportRequest. simpl. rewrite Hq, Hs, Ht. simpl.
  rewrite <- app_assoc. repeat split.
Qed.

(** X17. An answer that arrives in time cancels the timeout: after
    [transportMessage] has resolved the request in the slot, the callback
    of that request's timer does nothing any more. *)
Theorem answer_cancels_timeout
    (this : Backend) (msg : KeeWebConnectResponse) (current : RequestQueueItem) :
  ~ unsolicited msg ->
  _currentRequest this = Some current ->
  timeout_callback (Item.timeout current) (transportMessage msg this)
  = transportMessage msg this.
Proof.
  intros Hmsg Hcur. unfold timeout_callback.
  replace (timers (transportMessage msg this))
    with (filter (fun t => fst t ≠ Item.timeout current) (timers this)).
  - now rewrite list_find_filter_out.
  - unfold transportMessage, unsolicited in *.
    repeat (destruct (decide _); [tauto|]).
    rewrite Hcur, processRequestQueue_timers. reflexivity.
Qed.

(** X18. The notifications KeeWeb sends on its own do not touch the
    requests: slot, queue, timers and state stay as they are and no promise
    is settled, also while a request is in flight. The only effect is the
    focus request for ['attention-required']. *)
Theorem notifications_leave_requests_alone
    (this : Backend) (msg : KeeWebConnectResponse) :
  unsolicited msg ->
  let after := transportMessage msg this in
  _currentRequest after = _currentRequest this /\
  _requestQueue after = _requestQueue this /\
  timers after = timers this /\
  _state after = _state this /\
  (log after = log this \/
   (Resp.action msg = Some "attention-required" /\
    log after = log this ++ [transport_focusKeeWeb])).
Proof.
  intros Hmsg. cbv zeta. unfold transportMessage, focusKeeWebTab, unsolicited in *.
  destruct (decide _); [repeat split; auto|].
  destruct (decide _); [repeat split; auto|].
  destruct (decide _) as [Ha|]; [|tauto].
  destruct (_transport this); repeat split; auto.
Qed.

End BackendOperations.

(** ** The connection manager: configuration *)

Section BackendConfiguration.
Context `{Platform}.
Import BackendConnectionState.

Lemma storageChanged_finish_spec this :
  let after := storageChanged_finish this in
  _state after = ReadyToConnect /\
  _connectionError after = None /\
  _transport after = _transport this /\
  _useNativeApp after = _useNativeApp this /\
  _keeWebUrl after = _keeWebUrl this /\
  pending after = [] /\
  log after
    = log this ++ (if decide (_state this = ReadyToConnect) then [] else [emit_state_changed])
        ++ map (fun item => reject (Item.promise item) "Config changed") (pending this).
Proof.
  cbv zeta. unfold storageChanged_finish, resetStateByConfig. cbv zeta.
  set (s := setState ReadyToConnect (set_connectionError None this)).
  destruct (rejectPendingRequests_rejects_all "Config changed" s)
    as (Hlog & Hcur & Hq & Hst & _).
  assert (Hs : _state s = ReadyToConnect /\ _connectionError s = None /\
               _transport s = _transport this /\
               _useNativeApp s = _useNativeApp this /\
               _keeWebUrl s = _keeWebUrl this /\
               pending s = pending this /\
               log s = log this ++ (if decide (_state this = ReadyToConnect) then []
                                    else [emit_state_changed])).
  { unfold s. rewrite setState_log. unfold setState. simpl.
    destruct (decide (_state this ≠ ReadyToConnect)) as [Hne|Heq]; repeat split.
    simpl. destruct (decide (_state this = ReadyToConnect)); tauto. }
  destruct Hs as (Hs1 & Hs2 & Hs3 & Hs4 & Hs5 & Hs6 & Hs7).
  assert (Hframe : _connectionError (rejectPendingRequests "Config changed" s)
                   = _connectionError s /\
                   _transport (rejectPendingRequests "Config changed" s) = _transport s /\
                   _useNativeApp (rejectPendingRequests "Config changed" s)
                   = _useNativeApp s /\
                   _keeWebUrl (rejectPendingRequests "Config changed" s) = _keeWebUrl s).
  { unfold rejectPendingRequests. cbv zeta. rewrite fold_left_does.
    destruct (_currentRequest s); repeat split. }
  destruct Hframe as (Hf1 & Hf2 & Hf3 & Hf4).
  split; [congruence|]. split; [congruence|]. split; [congruence|].
  split; [congruence|]. split; [congruence|].
  split; [unfold pending; now rewrite Hcur, Hq|].
  rewrite Hlog, Hs6, Hs7, <- app_assoc. reflexivity.
Qed.

(** X19. [storageChanged] looks at one key only. A change that touches
    neither [useNativeApp] nor [keeWebUrl] does nothing at all; when both
    keys change in one event, [useNativeApp] is taken and the new
    [keeWebUrl] is dropped. *)
Theorem storageChanged_takes_one_key (changes : StorageChanges) (this : Backend) :
  (changed_useNativeApp changes = None -> changed_keeWebUrl changes = None ->
   storageChanged changes this = (this, [])) /\
  (forall newValue,
      changed_useNativeApp changes = Some newValue ->
      let after := fst (storageChanged changes this) in
      _useNativeApp after = default false newValue /\
      _keeWebUrl after = _keeWebUrl this).
Proof.
  unfold storageChanged, storageChanged_config. split.
  - intros -> ->. reflexivity.
  - intros newValue ->. cbv zeta.
    set (c := set_useNativeApp (default false newValue) this).
    destruct (_transport c); cbn [fst]; [split; reflexivity|].
    destruct (storageChanged_finish_spec c) as (_ & _ & _ & Hn & Hu & _).
    rewrite Hn, Hu. split; reflexivity.
Qed.

(** X20. A configuration change with a transport first only asks the
    transport to drop its listeners and disconnect; requests, state and
    effects stay as they are until that has happened. Then the transport
    is dropped, the state is [ReadyToConnect], the error is cleared, and the
    request in the slot and all queued requests are rejected with
    ['Config changed']. *)
Theorem config_change_resets_connection :
  (forall changes this transport,
      storageChanged_config changes this <> None ->
      _transport this = Some transport ->
      snd (storageChanged changes this)
        = [transport_removeAllListeners; transport_disconnect] /\
      pending (fst (storageChanged changes this)) = pending this /\
      _state (fst (storageChanged changes this)) = _state this /\
      log (fst (storageChanged changes this)) = log this) /\
  (forall this,
      let after := storageChanged_resumed this in
      _state after = ReadyToConnect /\
      _transport after = None /\
      _connectionError after = None /\
      pending after = [] /\
      log after
        = log this
            ++ (if decide (_state this = ReadyToConnect) then [] else [emit_state_changed])
            ++ map (fun item => reject (Item.promise item) "Config changed")
                 (pending this)).
Proof.
  split.
  - intros changes this transport Hrel Ht. unfold storageChanged.
    unfold storageChanged_config in *.
    destruct (changed_useNativeApp changes) as [v|];
      [|destruct (changed_keeWebUrl changes) as [v|]; [|congruence]];
      simpl; rewrite Ht; repeat split.
  - intros this. cbv zeta. unfold storageChanged_resumed. cbv zeta.
    destruct (storageChanged_finish_spec (set_transport None (_protocol this) this))
      as (H1 & H2 & H3 & _ & _ & H6 & H7).
    repeat split; assumption.
Qed.

(** X21. The transport that [connect] creates follows the stored
    configuration: the native transport unless [useNativeApp] was stored as
    [false], and otherwise the browser tab with the stored URL, or with the
    default URL when none, or an empty one, is stored. The tab transport is
    never given an empty URL, and its URL is what the getter [keeWebUrl]
    reports. *)
Theorem connect_follows_configuration
    (useNativeApp : option bool) (url : option string) (caller : nat) (this : Backend) :
  let after := connect caller (init_loaded useNativeApp url this) in
  let transport :=
    if default true useNativeApp then TransportNativeMessaging
    else TransportBrowserTab (default _defaultKeeWebUrl (truthy url)) in
  _state after = Connecting /\
  _transport after = Some transport /\
  In (new_transport transport) (log after) /\
  (forall u, transport = TransportBrowserTab u -> u <> "" /\ u = keeWebUrl after).
Proof.
  cbv zeta.
  assert (Hinit : _state (init_loaded useNativeApp url this) = ReadyToConnect).
  { unfold init_loaded, resetStateByConfig, setState. cbv zeta.
    destruct (decide _) as [Hne|Heq]; [reflexivity|].
    destruct (decide (_state (set_connectionError None
                (set_keeWebUrl url (set_useNativeApp (default true useNativeApp) this)))
              = ReadyToConnect)); tauto. }
  assert (Hcfg : _useNativeApp (init_loaded useNativeApp url this)
                 = default true useNativeApp /\
                 _keeWebUrl (init_loaded useNativeApp url this) = url).
  { unfold init_loaded, resetStateByConfig, setState. cbv zeta.
    destruct (decide _); split; reflexivity. }
  destruct Hcfg as [Hnative Hurl].
  set (i := init_loaded useNativeApp url this) in *. clearbody i.
  unfold connect. rewrite Hinit.
  rewrite decide_False by discriminate. rewrite decide_False by discriminate.
  cbv zeta.
  assert (Hr : _useNativeApp (rejectPendingRequests "Reconnecting" i) = _useNativeApp i /\
               _keeWebUrl (rejectPendingRequests "Reconnecting" i) = _keeWebUrl i /\
               _state (rejectPendingRequests "Reconnecting" i) = _state i).
  { unfold rejectPendingRequests. cbv zeta. rewrite fold_left_does.
    destruct (_currentRequest i); repeat split. }
  destruct Hr as (Hr1 & Hr2 & Hr3).
  set (r := rejectPendingRequests "Reconnecting" i) in *. clearbody r.
  unfold setState. rewrite decide_True by (simpl; rewrite Hr3, Hinit; discriminate).
  unfold initTransport. simpl. rewrite Hr1, Hr2, Hnative, Hurl.
  split; [reflexivity|]. split; [reflexivity|]. split.
  - apply in_or_app. left. apply in_or_app. right. left. reflexivity.
  - intros u Hu. unfold keeWebUrl. simpl. rewrite Hr2, Hurl.
    destruct (default true useNativeApp); [discriminate|]. injection Hu as <-.
    split; [|reflexivity].
    destruct url as [[|c rest]|]; simpl; discriminate.
Qed.

Lemma submits_nothing_resetStateByConfig this :
  submits_nothing this (resetStateByConfig this).
Proof.
  unfold resetStateByConfig. cbv zeta.
  apply (submits_nothing_trans _ (set_connectionError None this));
    [now apply submits_nothing_same|apply setState_submits_nothing].
Qed.

Lemma submits_nothing_finish this : submits_nothing this (storageChanged_finish this).
Proof.
  unfold storageChanged_finish. cbv zeta.
  apply (submits_nothing_trans _ (resetStateByConfig this));
    [apply submits_nothing_resetStateByConfig|apply rejectPendingRequests_submits_nothing].
Qed.

Lemma lifecycle_step_in_submission_order this e :
  in_submission_order this -> in_submission_order (lifecycle_step this e).
Proof.
  intros Ho. destruct e as [e|useNativeApp url|changes|]; simpl.
  - now apply step_in_submission_order.
  - refine (submits_nothing_order this _ _ Ho). unfold init_loaded. cbv zeta.
    eapply submits_nothing_trans; [|apply submits_nothing_resetStateByConfig].
    now apply submits_nothing_same.
  - refine (submits_nothing_order this _ _ Ho).
    unfold storageChanged, storageChanged_config.
    destruct (changed_useNativeApp changes) as [v|].
    + set (c := set_useNativeApp _ this).
      assert (Hc : submits_nothing this c) by now apply submits_nothing_same.
      destruct (_transport c); simpl; [exact Hc|].
      exact (submits_nothing_trans _ _ _ Hc (submits_nothing_finish c)).
    + destruct (changed_keeWebUrl changes) as [v|]; [|apply submits_nothing_refl].
      set (c := set_keeWebUrl _ this).
      assert (Hc : submits_nothing this c) by now apply submits_nothing_same.
      destruct (_transport c); simpl; [exact Hc|].
      exact (submits_nothing_trans _ _ _ Hc (submits_nothing_finish c)).
  - refine (submits_nothing_order this _ _ Ho). unfold storageChanged_resumed. cbv zeta.
    set (c := set_transport None (_protocol this) this).
    assert (Hc : submits_nothing this c) by now apply submits_nothing_same.
    exact (submits_nothing_trans _ _ _ Hc (submits_nothing_finish c)).
Qed.

(** X22. First in, first out. In every state the event loop can reach,
    configuration changes included, the requests that were given to the
    transport were given in the order in which they were submitted, none of
    them twice, and the queued requests come after them in that order. *)
Theorem dispatch_is_first_in_first_out (this : Backend) :
  lifecycle_reachable this ->
  sent (log this) ++ map Item.promise (_requestQueue this)
    `sublist_of` seq 0 (next_id this) /\
  NoDup (sent (log this)).
Proof.
  intros [events ->].
  assert (Hgen : forall b, in_submission_order b ->
                           in_submission_order (fold_left lifecycle_step events b)).
  { induction events as [|e events IH]; intros b Hb; simpl; [exact Hb|].
    apply IH, lifecycle_step_in_submission_order, Hb. }
  assert (Ho : in_submission_order (fold_left lifecycle_step events new_Backend)).
  { apply Hgen. unfold in_submission_order, sent_then_queued. simpl. reflexivity. }
  split; [exact Ho|].
  apply (sublist_NoDup _ (seq 0 (next_id (fold_left lifecycle_step events new_Backend))));
    [apply NoDup_seq|].
  transitivity (sent_then_queued (fold_left lifecycle_step events new_Backend));
    [|exact Ho].
  unfold sent_then_queued. now apply sublist_inserts_r.
Qed.

End BackendConfiguration.

(** ** The context menu *)

(** X23. The click listener runs no command for a click outside an editable
    element. Otherwise the URL and the frame id it hands to [runCommand]
    agree: a click in the top frame (frame id missing or 0) gives the page
    URL with frame id 0, a click in a sub-frame gives that frame's URL and
    id; the command is the id of the menu item. *)
Theorem onClicked_url_matches_frame (e : OnClickData) :
  (editable e = false -> onClicked e = None) /\
  (editable e = true ->
   exists args,
     onClicked e = Some args /\
     arg_command args = menuItemId e /\
     (arg_frameId args = 0 -> arg_url args = pageUrl e) /\
     (arg_frameId args <> 0 ->
      arg_url args = frameUrl e /\ frameId e = Some (arg_frameId args))).
Proof.
  unfold onClicked. split; intros ->; [reflexivity|]. simpl.
  eexists. split; [reflexivity|]. simpl. split; [reflexivity|].
  destruct (frameId e) as [id|]; simpl.
  - destruct (decide (id = 0)); split; intros; try tauto; try congruence; auto.
  - split; intros; [reflexivity|congruence].
Qed.

(** ** The further properties on the sample runs *)

Lemma getDatabaseHash_reports_errors_first_witness :
  exists k,
    getDatabaseHash Sample.paired (repeat 1 24)
    = Await (EncReq.to_request
               (EncReq.mk "get-databasehash"
                  (toBase64 (Sample.seal (Sample.chars "get-databasehash") (repeat 1 24)
                               (Sample.key32 5) (Sample.key32 9)))
                  (toBase64 (repeat 1 24)) (_clientId Sample.paired))) k /\
    k (Throw (Error "errorRequestTimeout")) = Return (Throw (Error "errorRequestTimeout")) /\
    k (Ok (Resp.mk None (Some "AAAA") (Some "AAAA") None (Some "locked") (Some "7") None))
    = Return (Throw (Error "errorAppReturnedError: [code=7] locked")).
Proof.
  destruct (getDatabaseHash_reports_errors_first Sample.paired (repeat 1 24) _ eq_refl)
    as (k & Hk & Hreject & Herror).
  exists k. split; [exact Hk|]. split; [apply Hreject|].
  exact (Herror (Resp.mk None (Some "AAAA") (Some "AAAA") None (Some "locked") (Some "7") None)
           "locked" eq_refl).
Defined.

Lemma handshake_enables_encrypted_requests_witness :
  exists k this',
    changePublicKeys Sample.fresh Sample.nonce0
    = Await (Req.mk "change-public-keys" None (Some (toBase64 Sample.nonce0))
               (Some (_clientId Sample.fresh))
               (Some (toBase64 (publicKey (_ownKeys Sample.fresh))))) k /\
    k (Ok (Resp.mk None None None (Some (Base64.toBase64 (Sample.key32 5))) None None None))
    = Return (Ok this') /\
    _keewebPublicKey this' = Some (Sample.key32 5) /\
    exists k',
      getDatabaseHash this' (repeat 1 24)
      = Await (Req.mk "get-databasehash"
                 (Some (toBase64
                          (crypto_box
                             (encode_json (Req.mk "get-databasehash" None None None None))
                             (repeat 1 24) (Sample.key32 5)
                             (secretKey (_ownKeys Sample.fresh)))))
                 (Some (toBase64 (repeat 1 24))) (Some (_clientId Sample.fresh)) None) k'.
Proof.
  apply (handshake_enables_encrypted_requests Sample.fresh Sample.nonce0 (repeat 1 24)
           (Sample.key32 5)
           (Resp.mk None None None (Some (Base64.toBase64 (Sample.key32 5))) None None None)
           (Base64.toBase64 (Sample.key32 5)));
    vm_compute; reflexivity.
Defined.

(** The run of [Scenario.stale_timer], in the event loop with the
    configuration events. *)
Definition stale_timer_run : Backend :=
  fold_left lifecycle_step (map lc_event Scenario.stale_timer) new_Backend.

Lemma stale_timer_run_reachable : lifecycle_reachable stale_timer_run.
Proof. exists (map lc_event Scenario.stale_timer). reflexivity. Qed.

Lemma every_request_is_settled_or_timed_witness :
  (4%nat, 4%nat) ∈ timers stale_timer_run \/
  existsb (is_settled 4) (log stale_timer_run) = true.
Proof.
  apply (every_request_is_settled_or_timed stale_timer_run 4 stale_timer_run_reachable).
  vm_compute. lia.
Defined.

Lemma held_requests_are_distinct_and_ordered_witness :
  NoDup (map Item.promise (pending stale_timer_run)) /\
  map Item.promise (pending stale_timer_run) `sublist_of` seq 0 (next_id stale_timer_run).
Proof.
  exact (held_requests_are_distinct_and_ordered stale_timer_run stale_timer_run_reachable).
Defined.

Lemma dispatch_is_first_in_first_out_witness :
  sent (log stale_timer_run) ++ map Item.promise (_requestQueue stale_timer_run)
    `sublist_of` seq 0 (next_id stale_timer_run) /\
  NoDup (sent (log stale_timer_run)).
Proof.
  exact (dispatch_is_first_in_first_out stale_timer_run stale_timer_run_reachable).
Defined.

(** Connected, request 1 in the slot and request 2 queued. *)
Definition two_requests : Backend :=
  run (Scenario.connected ++
       [ev_request (Scenario.get_logins "a"); ev_request (Scenario.get_logins "b")])
    new_Backend.

Lemma timed_out_queued_request_is_still_sent_witness :
  let after := processRequestQueue (timeout_callback 2%nat two_requests) in
  log after
    = log two_requests ++ [reject 2%nat "errorRequestTimeout";
                           transport_request 2%nat (Scenario.get_logins "b")] /\
  _currentRequest after = Some (Item.mk (Scenario.get_logins "b") 2 2) /\
  _requestQueue after = [].
Proof.
  refine (timed_out_queued_request_is_still_sent two_requests
            (Item.mk (Scenario.get_logins "b") 2 2) [] 1 TransportNativeMessaging
            _ _ _ _);
    vm_compute; reflexivity.
Defined.

Lemma answer_cancels_timeout_witness :
  timeout_callback 1%nat (transportMessage (Scenario.answer "to a") two_requests)
  = transportMessage (Scenario.answer "to a") two_requests.
Proof.
  apply (answer_cancels_timeout two_requests (Scenario.answer "to a")
           (Item.mk (Scenario.get_logins "a") 1 1)).
  - unfold unsolicited. simpl. intros [Ha|[Ha|Ha]]; discriminate.
  - vm_compute. reflexivity.
Defined.

Lemma notifications_leave_requests_alone_witness :
  let locked := Resp.mk (Some "database-locked") None None None None None None in
  let after := transportMessage locked two_requests in
  _currentRequest after = _currentRequest two_requests /\
  _requestQueue after = _requestQueue two_requests /\
  timers after = timers two_requests /\
  _state after = _state two_requests /\
  (log after = log two_requests \/
   (Resp.action locked = Some "attention-required" /\
    log after = log two_requests ++ [transport_focusKeeWeb])).
Proof.
  apply (notifications_leave_requests_alone two_requests
           (Resp.mk (Some "database-locked") None None None None None None)).
  left. reflexivity.
Defined.

(** A request queued during the handshake is still unsent when [connect]
    has finished, and is sent by the next drain. *)
Example queued_during_handshake_waits :
  let this :=
    run [ev_connect 100%nat; ev_request Sample.change_public_keys;
         ev_request (Scenario.get_logins "a"); ev_message Scenario.handshake_ack;
         ev_connect_succeeded 100%nat] new_Backend in
  _state this = BackendConnectionState.Connected /\
  _currentRequest this = None /\
  map Item.promise (_requestQueue this) = [1%nat] /\
  sent (log this) = [0%nat] /\
  sent (log (processRequestQueue this)) = [0; 1]%nat.
Proof. vm_compute. repeat split; reflexivity. Qed.
